(** * parallel_merge_sort.c: a shallow embedding and its properties

    The C program sorts an array of [int32_t] in place by a recursive merge
    sort.  Ranges of more than 2000 elements are split into two OpenMP tasks
    and merged by [merge_parallel]; smaller ranges recurse inline and are
    merged by [merge_sequential].

    Conventions of the embedding:
    - a C [int] is a [Z]; every arithmetic operation of the source is written
      with [int_add], [int_sub], [int_div], which reduce the result to 32
      bits (two's complement wrap-around);
    - the array [arr] is a [list Z] read with [!!] and written with
      [<[_:=_]>]; an access outside the list is undefined behaviour in C and
      is reported as [Undefined OutOfBounds];
    - a temporary buffer is a [list (option Z)] ([None] is an indeterminate
      cell), and a pointer to one is an [option] ([None] is [NULL]);
    - a loop whose trip count is not fixed by its header takes fuel; running
      out of it is the outcome [OutOfFuel], and the theorems show that the
      fuel each function provides is enough;
    - what the OpenMP runtime and the allocator decide (the order of loop
      iterations and of tasks, the success of [calloc]) is a parameter of
      type [omp_runtime]. *)

From Stdlib Require Import Ascii.
From stdpp Require Import base list numbers sorting sets strings.

Local Open Scope Z_scope.

(** ** 32-bit [int] arithmetic *)

Definition INT_MIN : Z := -2147483648.
Definition INT_MAX : Z := 2147483647.

Definition wrap_int (z : Z) : Z := (z + 2147483648) `mod` 4294967296 - 2147483648.

Definition int_add (a b : Z) : Z := wrap_int (a + b).
Definition int_sub (a b : Z) : Z := wrap_int (a - b).
(** C division truncates towards zero. *)
Definition int_div (a b : Z) : Z := wrap_int (a `quot` b).

(** ** Outcomes of a run *)

Inductive fault : Type :=
  | OutOfBounds      (* access outside an array or buffer *)
  | NullPointer      (* access through NULL *)
  | Uninitialised    (* read of an indeterminate cell *)
  | BadSize.         (* variable length array of non-positive size *)

Inductive outcome (A : Type) : Type :=
  | Done (a : A)
  | Undefined (f : fault)
  | OutOfFuel.

Arguments Done {A} a.
Arguments Undefined {A} f.
Arguments OutOfFuel {A}.

#[global] Instance outcome_ret : MRet outcome := @Done.
#[global] Instance outcome_bind : MBind outcome := λ A B k m,
  match m with
  | Done a => k a
  | Undefined f => Undefined f
  | OutOfFuel => OutOfFuel
  end.

(** ** Memory *)

Abbreviation buffer := (list (option Z)).
Abbreviation pointer := (option (list (option Z))).

Definition arr_load (arr : list Z) (idx : Z) : outcome Z :=
  if idx <? 0 then Undefined OutOfBounds
  else match arr !! Z.to_nat idx with
       | Some v => Done v
       | None => Undefined OutOfBounds
       end.

Definition arr_store (arr : list Z) (idx v : Z) : outcome (list Z) :=
  if (0 <=? idx) && (idx <? Z.of_nat (length arr))
  then Done (<[Z.to_nat idx := v]> arr)
  else Undefined OutOfBounds.

Definition ptr_load (p : pointer) (idx : Z) : outcome Z :=
  match p with
  | None => Undefined NullPointer
  | Some b =>
      if idx <? 0 then Undefined OutOfBounds
      else match b !! Z.to_nat idx with
           | Some (Some v) => Done v
           | Some None => Undefined Uninitialised
           | None => Undefined OutOfBounds
           end
  end.

Definition ptr_store (p : pointer) (idx v : Z) : outcome pointer :=
  match p with
  | None => Undefined NullPointer
  | Some b =>
      if (0 <=? idx) && (idx <? Z.of_nat (length b))
      then Done (Some (<[Z.to_nat idx := Some v]> b))
      else Undefined OutOfBounds
  end.

(** [calloc(n, sizeof(int32_t))]: the allocator either fails (NULL) or hands
    out [n] zeroed cells; [ok] tells which.  It has to fail when the byte
    count does not fit [size_t], as it does for a negative [n] converted to
    [size_t]. *)
Definition SIZE_MAX : Z := 18446744073709551615.

Definition calloc_zeroed (ok : bool) (n : Z) : option (list Z) :=
  if ok && (0 <=? n) && (4 * n <=? SIZE_MAX)
  then Some (replicate (Z.to_nat n) 0) else None.

Definition calloc (ok : bool) (n : Z) : pointer :=
  match calloc_zeroed ok n with
  | Some cells => Some (Some <$> cells)
  | None => None
  end.

(** [int32_t L[n]]: a variable length array, cells indeterminate. *)
Definition vla (n : Z) : outcome pointer :=
  if 0 <? n then Done (Some (replicate (Z.to_nat n) None)) else Undefined BadSize.

(** ** Loops *)

(** The body run once for each iteration of the list, in the list's order. *)
Fixpoint for_each {S : Type} (body : Z → S → outcome S) (iters : list Z) (s : S)
  : outcome S :=
  match iters with
  | [] => Done s
  | it :: rest => s' ← body it s; for_each body rest s'
  end.

(** [for (i = 0; i < n; i++) body] *)
Definition for_loop {S : Type} (n : Z) (body : Z → S → outcome S) (s : S) : outcome S :=
  for_each body (seqZ 0 n) s.

(** The order in which a workshared loop of [n] iterations runs them:
    iteration [m] is put at position [pick m mod (m+1)] among the
    iterations below it.  Every order arises from some [pick]. *)
Fixpoint omp_schedule (pick : nat → nat) (n : nat) : list nat :=
  match n with
  | O => []
  | S m =>
      let o := omp_schedule pick m in
      let p := (pick m `mod` S m)%nat in
      take p o ++ m :: drop p o
  end.

(** [#pragma omp for] over [for (i = 0; i < n; i++) body] *)
Definition omp_for {S : Type} (pick : nat → nat) (n : Z) (body : Z → S → outcome S) (s : S)
  : outcome S :=
  for_each body (Z.of_nat <$> omp_schedule pick (Z.to_nat n)) s.

(** [while (cond) body] *)
Fixpoint while_loop {S : Type} (fuel : nat) (cond : S → bool) (body : S → outcome S) (s : S)
  : outcome S :=
  if cond s then
    match fuel with
    | O => OutOfFuel
    | S fuel' => s' ← body s; while_loop fuel' cond body s'
    end
  else Done s.

(** ** The OpenMP runtime and the allocator *)

Inductive run : Type := RunL | RunR.

(** The choices are indexed by the range [left], [right] of the call that
    asks for them; within one sort every range is visited once. *)
Record omp_runtime : Type := {
  calloc_ok : Z → Z → run → bool;       (* does calloc of L / R succeed *)
  for_pick : Z → Z → run → nat → nat;   (* order of the copy loop of L / R *)
  task_first : Z → Z → bool             (* is the first task run first *)
}.

(** Two [#pragma omp task] followed by [#pragma omp taskwait]: both child
    tasks have run to completion when taskwait returns; which one ran first
    is the runtime's choice.  [merge_sort_recursive] is called outside of any
    parallel region, so the tasks are run by the encountering thread one
    after the other. *)
Definition omp_tasks_taskwait {S : Type} (first_first : bool)
    (task1 task2 : S → outcome S) (s : S) : outcome S :=
  if first_first then s' ← task1 s; task2 s' else s' ← task2 s; task1 s'.

(** ** The merges *)

Record merge_state : Type := {
  ms_i : Z; ms_j : Z; ms_k : Z; ms_arr : list Z
}.

(** Body of [while (i < n1 && j < n2)]. *)
Definition take_smaller (L R : pointer) (s : merge_state) : outcome merge_state :=
  x ← ptr_load L (ms_i s);
  y ← ptr_load R (ms_j s);
  if x <=? y then
    a ← arr_store (ms_arr s) (ms_k s) x;
    Done {| ms_i := int_add (ms_i s) 1; ms_j := ms_j s;
            ms_k := int_add (ms_k s) 1; ms_arr := a |}
  else
    a ← arr_store (ms_arr s) (ms_k s) y;
    Done {| ms_i := ms_i s; ms_j := int_add (ms_j s) 1;
            ms_k := int_add (ms_k s) 1; ms_arr := a |}.

(** Body of [while (i < n1)]. *)
Definition take_left (L : pointer) (s : merge_state) : outcome merge_state :=
  x ← ptr_load L (ms_i s);
  a ← arr_store (ms_arr s) (ms_k s) x;
  Done {| ms_i := int_add (ms_i s) 1; ms_j := ms_j s;
          ms_k := int_add (ms_k s) 1; ms_arr := a |}.

(** Body of [while (j < n2)]. *)
Definition take_right (R : pointer) (s : merge_state) : outcome merge_state :=
  y ← ptr_load R (ms_j s);
  a ← arr_store (ms_arr s) (ms_k s) y;
  Done {| ms_i := ms_i s; ms_j := int_add (ms_j s) 1;
          ms_k := int_add (ms_k s) 1; ms_arr := a |}.

(** The three while loops that merge [L] and [R] back into [arr]; the text
    is the same in [merge_parallel] (lines 59-91) and [merge_sequential]
    (lines 122-154). *)
Definition interleave (arr : list Z) (left n1 n2 : Z) (L R : pointer)
  : outcome (list Z) :=
  let s0 := {| ms_i := 0; ms_j := 0; ms_k := left; ms_arr := arr |} in
  s1 ← while_loop (Z.to_nat n1 + Z.to_nat n2)
         (λ s, (ms_i s <? n1) && (ms_j s <? n2)) (take_smaller L R) s0;
  s2 ← while_loop (Z.to_nat n1) (λ s, ms_i s <? n1) (take_left L) s1;
  s3 ← while_loop (Z.to_nat n2) (λ s, ms_j s <? n2) (take_right R) s2;
  Done (ms_arr s3).

(** [L[i] = arr[base + i]] *)
Definition copy_cell (arr : list Z) (base : Z) (idx : Z) (p : pointer) : outcome pointer :=
  v ← arr_load arr (int_add base idx);
  ptr_store p idx v.

(** The results of [calloc] are used as they come; [free] at the end
    leaves the array as it is. *)
Definition merge_parallel (rt : omp_runtime) (arr : list Z) (left mid right : Z)
  : outcome (list Z) :=
  let n1 := int_add (int_sub mid left) 1 in
  let n2 := int_sub right mid in
  let L := calloc (calloc_ok rt left right RunL) n1 in
  let R := calloc (calloc_ok rt left right RunR) n2 in
  L ← omp_for (for_pick rt left right RunL) n1 (copy_cell arr left) L;
  R ← omp_for (for_pick rt left right RunR) n2 (copy_cell arr (int_add mid 1)) R;
  interleave arr left n1 n2 L R.

Definition merge_sequential (arr : list Z) (left mid right : Z) : outcome (list Z) :=
  let n1 := int_add (int_sub mid left) 1 in
  let n2 := int_sub right mid in
  L ← vla n1;
  R ← vla n2;
  L ← for_loop n1 (copy_cell arr left) L;
  R ← for_loop n2 (copy_cell arr (int_add mid 1)) R;
  interleave arr left n1 n2 L R.

(** ** The recursive driver *)

Fixpoint merge_sort_recursive_fuel (fuel : nat) (rt : omp_runtime)
    (arr : list Z) (left right : Z) : outcome (list Z) :=
  if left <? right then
    match fuel with
    | O => OutOfFuel
    | S fuel' =>
        let size := int_sub right left in
        let mid := int_add left (int_div size 2) in
        if size <? 2000 then
          arr ← merge_sort_recursive_fuel fuel' rt arr left mid;
          arr ← merge_sort_recursive_fuel fuel' rt arr (int_add mid 1) right;
          merge_sequential arr left mid right
        else
          arr ← omp_tasks_taskwait (task_first rt left right)
                  (λ a, merge_sort_recursive_fuel fuel' rt a left mid)
                  (λ a, merge_sort_recursive_fuel fuel' rt a (int_add mid 1) right)
                  arr;
          merge_parallel rt arr left mid right
    end
  else Done arr.

(** The recursion depth is bounded by the size of the range. *)
Definition merge_sort_recursive (rt : omp_runtime) (arr : list Z) (left right : Z)
  : outcome (list Z) :=
  merge_sort_recursive_fuel (Z.to_nat (right - left)) rt arr left right.

(** ** The check *)

Section is_array_sorted.
(** How [arr[idx]] is read. *)
Variable load : Z → outcome Z.

Fixpoint is_array_sorted_with (fuel : nat) (n : Z) : outcome Z :=
  if (n =? 1) || (n =? 0) then Done 1
  else
    x ← load (int_sub n 1);
    y ← load (int_sub n 2);
    if x <? y then Done 0
    else match fuel with
         | O => OutOfFuel
         | S fuel' => is_array_sorted_with fuel' (int_sub n 1)
         end.
End is_array_sorted.

Definition is_array_sorted (arr : list Z) (n : Z) : outcome Z :=
  is_array_sorted_with (arr_load arr) (Z.to_nat n) n.

(** ** The harness *)

Definition LONG_MAX : Z := 9223372036854775807.
Definition LONG_MIN : Z := -9223372036854775808.
Definition ERANGE : Z := 34.
Definition EXIT_SUCCESS : Z := 0.
Definition EXIT_FAILURE : Z := 1.

(** What [strtol(str, &endptr, 0)] leaves: the value, [endptr - str] and
    [errno]. *)
Record strtol_result : Type := {
  st_value : Z; st_end : nat; st_errno : Z
}.

Definition is_space (c : Ascii.ascii) : bool :=
  let n := Z.of_N (Ascii.N_of_ascii c) in (n =? 32) || ((9 <=? n) && (n <=? 13)).

Definition digit_value (c : Ascii.ascii) : option Z :=
  let n := Z.of_N (Ascii.N_of_ascii c) in
  if (48 <=? n) && (n <=? 57) then Some (n - 48)
  else if (97 <=? n) && (n <=? 122) then Some (n - 87)
  else if (65 <=? n) && (n <=? 90) then Some (n - 55)
  else None.

Definition is_digit_in (base : Z) (c : Ascii.ascii) : bool :=
  match digit_value c with
  | Some d => d <? base
  | None => false
  end.

Fixpoint skip_space (s : list Ascii.ascii) : nat :=
  match s with
  | c :: rest => if is_space c then S (skip_space rest) else O
  | [] => O
  end.

(** The longest run of digits of the base: its value and its length. *)
Fixpoint convert (base : Z) (s : list Ascii.ascii) (acc : Z) : Z * nat :=
  match s with
  | c :: rest =>
      match digit_value c with
      | Some d =>
          if d <? base
          then let '(v, len) := convert base rest (acc * base + d) in (v, S len)
          else (acc, O)
      | None => (acc, O)
      end
  | [] => (acc, O)
  end.

(** [strtol] of the C library with base 0 and a 64-bit [long] (ISO C
    7.22.1.4): white space, an optional sign, [0x] for hexadecimal or a
    leading [0] for octal, then digits; what follows the digits is left
    unread.  Without digits nothing is converted, [endptr] is [str] and
    [errno] stays 0; a value out of range is clamped and [errno] is
    [ERANGE]. *)
Definition strtol (str : string) : strtol_result :=
  let s := String.list_ascii_of_string str in
  let ws := skip_space s in
  let s1 := drop ws s in
  let '(neg, sg) :=
    match s1 with
    | "-"%char :: _ => (true, 1%nat)
    | "+"%char :: _ => (false, 1%nat)
    | _ => (false, O)
    end in
  let s2 := drop sg s1 in
  let '(base, pre) :=
    match s2 with
    | "0"%char :: x :: h :: _ =>
        if (Ascii.eqb x "x" || Ascii.eqb x "X") && is_digit_in 16 h
        then (16, 2%nat) else (8, O)
    | "0"%char :: _ => (8, O)
    | _ => (10, O)
    end in
  let '(v, len) := convert base (drop pre s2) 0 in
  match len with
  | O => {| st_value := 0; st_end := O; st_errno := 0 |}
  | S _ =>
      let v := if neg then - v else v in
      let e := (ws + sg + pre + len)%nat in
      if LONG_MAX <? v then {| st_value := LONG_MAX; st_end := e; st_errno := ERANGE |}
      else if v <? LONG_MIN then {| st_value := LONG_MIN; st_end := e; st_errno := ERANGE |}
      else {| st_value := v; st_end := e; st_errno := 0 |}
  end.

(** What a run of the program shows: a line of text on one of the two
    streams (without its newline), a number of the array, the time. *)
Inductive event : Type :=
  | Stderr (text : string)
  | Stdout (text : string)
  | StdoutInt (v : Z)        (* printf("%d ", v) *)
  | StdoutTime.              (* the elapsed time *)

Inductive termination : Type :=
  | Exit (status : Z)
  | Aborted                  (* a failed assert *)
  | Crashed (f : fault)
  | Hung.

Record execution : Type := {
  events : list event; ending : termination
}.

(** What [main] does not decide itself. *)
Record environment : Type := {
  env_calloc_arr : bool;       (* does the calloc of arr succeed *)
  env_rand : Z → Z;            (* rand_r(&my_seed) / 10000000 as stored in arr[i] *)
  env_fill_pick : nat → nat;   (* order of the iterations of the fill loop *)
  env_omp : omp_runtime
}.

(** [for (int i = 0; i < n; i++) body] with [n] a [long]: the counter is an
    [int] and wraps. *)
Definition for_int_below {S : Type} (n : Z) (body : Z → S → outcome S) (s : S)
  : outcome S :=
  st ← while_loop (Z.to_nat n) (λ st : Z * S, st.1 <? n)
         (λ st, s' ← body st.1 st.2; Done (int_add st.1 1, s')) (0, s);
  Done st.2.

(** The same loop under [#pragma omp for]; the iterations are shared out
    only when their number fits the counter. *)
Definition omp_for_int_below {S : Type} (pick : nat → nat) (n : Z)
    (body : Z → S → outcome S) (s : S) : outcome S :=
  if n <=? INT_MAX then omp_for pick n body s else for_int_below n body s.

Definition print_array (arr : list Z) (n : Z) (out : list event) : outcome (list event) :=
  for_int_below n (λ i out, v ← arr_load arr i; Done (out ++ [StdoutInt v])) out.

(** [main] from the allocation of [arr] on, up to the assert: what was
    printed and what [is_array_sorted] returned.  The conversions of the
    [long n] to the [int] parameters are [wrap_int]. *)
Definition sort_and_check (env : environment) (n : Z) (arr : list Z)
  : outcome (list event * Z) :=
  arr ← omp_for_int_below (env_fill_pick env) n
          (λ i a, arr_store a i (env_rand env i)) arr;
  out ← print_array arr n [Stdout "Before: "];
  arr ← merge_sort_recursive (env_omp env) arr 0 (wrap_int (n - 1));
  out ← print_array arr n (out ++ [Stdout ""; Stdout "After: "]);
  sorted ← is_array_sorted arr (wrap_int n);
  Done (out ++ [Stdout ""], sorted).

(** [argc] is the length of [argv].  [perror] prints the text of [ERANGE],
    the only value [strtol] gives [errno].  What a run printed before it
    crashed is not kept. *)
Definition main (env : environment) (argv : list string) : execution :=
  if negb (length argv =? 2)%nat then
    {| events := [Stderr (String.append "Error: usage: "
                            (String.append (default "" (argv !! 0%nat)) " <n>"))];
       ending := Exit EXIT_FAILURE |}
  else
    let str := default "" (argv !! 1%nat) in
    let r := strtol str in
    if negb (st_errno r =? 0) then
      {| events := [Stderr "strtol: Numerical result out of range"];
         ending := Exit EXIT_FAILURE |}
    else if (st_end r =? 0)%nat then
      {| events := [Stderr "Error: no digits were found!"];
         ending := Exit EXIT_FAILURE |}
    else
      let n := st_value r in
      if n <? 0 then
        {| events := [Stderr "Error: matrix size must not be negative!"];
           ending := Exit EXIT_FAILURE |}
      else
        match calloc_zeroed (env_calloc_arr env) n with
        | None => {| events := [Stdout "MALLOC ERROR"]; ending := Exit EXIT_FAILURE |}
        | Some arr =>
            match sort_and_check env n arr with
            | Done (out, sorted) =>
                if sorted =? 0 then {| events := out; ending := Aborted |}
                else {| events := out ++ [StdoutTime]; ending := Exit EXIT_SUCCESS |}
            | Undefined f => {| events := []; ending := Crashed f |}
            | OutOfFuel => {| events := []; ending := Hung |}
            end
        end.

(** ** Runtimes and inputs of the examples *)

(** A runtime for the examples: every calloc succeeds, loops and tasks run
    in source order. *)
Definition rt_in_order : omp_runtime :=
  {| calloc_ok := λ _ _ _, true; for_pick := λ _ _ _ m, m; task_first := λ _ _, true |}.

(** A runtime that runs loops backwards and the second task first. *)
Definition rt_reversed : omp_runtime :=
  {| calloc_ok := λ _ _ _, true; for_pick := λ _ _ _ _, O; task_first := λ _ _, false |}.

(** A runtime in which no [calloc] succeeds. *)
Definition rt_no_memory : omp_runtime :=
  {| calloc_ok := λ _ _ _, false; for_pick := λ _ _ _ m, m; task_first := λ _ _, true |}.

(** [n-1, ..., 1, 0] *)
Definition descending (n : nat) : list Z := Z.of_nat <$> reverse (seq 0 n).

(** An environment for the examples. *)
Definition env_plain : environment :=
  {| env_calloc_arr := true; env_rand := λ i, (5 * i + 3) `mod` 7;
     env_fill_pick := λ m, m; env_omp := rt_in_order |}.

(** ** Vocabulary of the statements *)

(** [arr[left..right]], both ends included. *)
Definition slice (arr : list Z) (left right : Z) : list Z :=
  take (Z.to_nat (right + 1 - left)) (drop (Z.to_nat left) arr).

(** Every [calloc] of the run succeeds. *)
Definition allocations_succeed (rt : omp_runtime) : Prop :=
  ∀ left right b, calloc_ok rt left right b = true.

(** ** The invariant of the interleave phase

    The array is [A ++ X ++ Y ++ B]: the left run [X] starts at index
    [length A], the right run [Y] follows it. *)

(** [a] cells of [X] and [b] cells of [Y] have been written back: the
    written part [W] is the beginning of the merge, the part [T] is still
    to be overwritten. *)
Definition merge_at (A X Y B : list Z) (a b : nat) (s : merge_state) : Prop :=
  ∃ W T : list Z,
    ms_i s = Z.of_nat a ∧ ms_j s = Z.of_nat b
    ∧ (a ≤ length X)%nat ∧ (b ≤ length Y)%nat
    ∧ ms_k s = wrap_int (Z.of_nat (length A + a + b))
    ∧ ms_arr s = A ++ W ++ T ++ B
    ∧ length W = (a + b)%nat
    ∧ length T = (length X - a + (length Y - b))%nat
    ∧ W ++ list_merge Z.le (drop a X) (drop b Y) = list_merge Z.le X Y.

(** The variant: the cells of the two runs not yet written back. *)
Definition remaining (X Y : list Z) (s : merge_state) : nat :=
  (Z.to_nat (Z.of_nat (length X) - ms_i s) + Z.to_nat (Z.of_nat (length Y) - ms_j s))%nat.

(** ** The comparisons of a loop *)

(** The states in which a loop that starts in [s0] tests its condition:
    [s0], and what the body makes of a visited state that passes the test. *)
Inductive while_visits {S : Type} (cond : S → bool) (body : S → outcome S) (s0 : S)
  : S → Prop :=
  | visits_start : while_visits cond body s0 s0
  | visits_next (s s' : S) :
      while_visits cond body s0 s → cond s = true → body s = Done s' →
      while_visits cond body s0 s'.

(** ** calculate_folder_size.c

    The second program of the repository adds up the sizes of the files
    below a folder.  What the file system, the allocator and the OpenMP
    runtime answer is a parameter of type [system].  The folder is read with
    [readdir]; every sub-folder becomes a task that adds the size of the
    sub-folder to the shared [size] with an atomic update, every other entry
    is added by the parent itself, without protection. *)

Module FolderSize.

Definition EACCES : Z := 13.
Definition EFAULT : Z := 14.
Definition ENOENT : Z := 2.
Definition ENOTDIR : Z := 20.

(** [size_t] arithmetic, 64 bits. *)
Definition wrap_size (z : Z) : Z := z `mod` 18446744073709551616.

(** What the program looks at in a [struct stat]: [S_ISREG(st_mode)] and
    [st_size]. *)
Record stat_buf : Type := {
  st_is_reg : bool; st_size : Z
}.

(** What it looks at in a [struct dirent]: [d_name] and
    [d_type == DT_DIR]. *)
Record dirent : Type := {
  d_name : string; d_is_dir : bool
}.

Record system : Type := {
  lstat : string → option stat_buf;         (* None: lstat returns -1 *)
  opendir : string → option (list dirent);  (* None: NULL; else what readdir hands out *)
  malloc_ok : string → bool;                (* malloc of the buffer of this entry name *)
  strdup_ok : string → bool;                (* strdup of this entry name *)
  task_pick : string → nat → nat            (* order in which the tasks of a folder run *)
}.

Inductive hazard : Type :=
  | NullName     (* a string function or lstat called with NULL *)
  | DataRace.    (* size updated without protection while a task may update it *)

Inductive result (A : Type) : Type :=
  | Returned (a : A)
  | Hazard (h : hazard)
  | NoFuel.

Arguments Returned {A} a.
Arguments Hazard {A} h.
Arguments NoFuel {A}.

(** Within one call: [size], what [perror] printed, and the names handed to
    the tasks created so far (NULL when [strdup] failed). *)
Record folder_state : Type := {
  fs_size : Z; fs_log : list event; fs_tasks : list (option string)
}.

(** [path/d_name], as the three [strcpy] build it. *)
Definition entry_name (path : string) (e : dirent) : string :=
  path +:+ "/" +:+ d_name e.

(** The body of the [readdir] loop.  [name] is used as [malloc] returns it.
    The else branch adds to [size] with a plain [+=]; when a task of this
    folder has been created, that task updates [size] atomically and may run
    at the same time: OpenMP leaves the outcome open. *)
Definition visit (sys : system) (path : string) (e : dirent) (s : folder_state)
  : result folder_state :=
  let name := entry_name path e in
  if negb (malloc_ok sys name) then Hazard NullName
  else if d_is_dir e then
    if negb (String.eqb (d_name e) ".") && negb (String.eqb (d_name e) "..") then
      Returned {| fs_size := fs_size s; fs_log := fs_log s;
                  fs_tasks := fs_tasks s
                              ++ [if strdup_ok sys name then Some name else None] |}
    else Returned s
  else
    match lstat sys name with
    | Some sb =>
        match fs_tasks s with
        | [] => Returned {| fs_size := wrap_size (fs_size s + wrap_size (st_size sb));
                            fs_log := fs_log s; fs_tasks := [] |}
        | _ :: _ => Hazard DataRace
        end
    | None => Returned {| fs_size := fs_size s;
                          fs_log := fs_log s ++ [Stderr "LSTAT ERROR"];
                          fs_tasks := fs_tasks s |}
    end.

(** [for (element = readdir(folder); element != NULL; ...)] *)
Fixpoint visit_all (sys : system) (path : string) (entries : list dirent)
    (s : folder_state) : result folder_state :=
  match entries with
  | [] => Returned s
  | e :: rest =>
      match visit sys path e s with
      | Returned s' => visit_all sys path rest s'
      | Hazard h => Hazard h
      | NoFuel => NoFuel
      end
  end.

(** The tasks in the order the runtime runs them. *)
Definition in_run_order {A : Type} (pick : nat → nat) (tasks : list A) : list A :=
  omap (λ k, tasks !! k) (omp_schedule pick (length tasks)).

(** The tasks, each [size += calculate_folder_size(priv_name)] under
    [atomic update]; all have run when [taskwait] returns.  What the tasks
    print is put after what the parent printed, in the order they run. *)
Fixpoint run_tasks (walk : string → result (Z * list event))
    (tasks : list (option string)) (size : Z) (log : list event)
  : result (Z * list event) :=
  match tasks with
  | [] => Returned (size, log)
  | None :: _ => Hazard NullName
  | Some name :: rest =>
      match walk name with
      | Returned (r, l) => run_tasks walk rest (wrap_size (size + wrap_size r)) (log ++ l)
      | Hazard h => Hazard h
      | NoFuel => NoFuel
      end
  end.

(** The function returns an [int]: [st_size] and [size] are converted on
    return.  The value and what [perror] printed. *)
Fixpoint calculate_folder_size (fuel : nat) (sys : system) (path : string)
  : result (Z * list event) :=
  match fuel with
  | O => NoFuel
  | S fuel' =>
      let folder (log : list event) : result (Z * list event) :=
        match opendir sys path with
        | None => Returned (0, log ++ [Stderr "OPENDIR ERROR"])
        | Some entries =>
            match visit_all sys path entries
                    {| fs_size := 4096; fs_log := log; fs_tasks := [] |} with
            | Returned s =>
                match run_tasks (calculate_folder_size fuel' sys)
                        (in_run_order (task_pick sys path) (fs_tasks s))
                        (fs_size s) (fs_log s) with
                | Returned (size, log') => Returned (wrap_int size, log')
                | Hazard h => Hazard h
                | NoFuel => NoFuel
                end
            | Hazard h => Hazard h
            | NoFuel => NoFuel
            end
        end in
      match lstat sys path with
      | Some sb =>
          if st_is_reg sb then Returned (wrap_int (st_size sb), []) else folder []
      | None => folder [Stderr "LSTAT ERROR"]
      end
  end.

Inductive finish : Type :=
  | Exited (status : Z)
  | Broken (h : hazard)
  | Spinning.

Record showing : Type := {
  shown : list event; finished : finish
}.

(** [main]: [stat_ret] is what [stat] returns.  The end of [main] is reached
    without a return statement, which is status 0. *)
Definition main (stat_ret : Z) (fuel : nat) (sys : system) (argv : list string) : showing :=
  if negb (length argv =? 2)%nat then
    {| shown := [Stdout "Usage: testprog <dirname>"]; finished := Exited EXIT_FAILURE |}
  else
    let str := default "" (argv !! 1%nat) in
    let verdict :=
      if stat_ret =? EACCES then "Access denied."
      else if stat_ret =? EFAULT then "Bad address."
      else if stat_ret =? ENOENT then
        "A component of the path does not exist, or the path is an empty string."
      else if stat_ret =? ENOTDIR then "A component of the path is not a directory."
      else "Path ok." in
    match calculate_folder_size fuel sys str with
    | Returned (folder_size, log) =>
        {| shown := Stdout verdict :: log ++ [Stdout "Size: "; StdoutInt folder_size; StdoutTime];
           finished := Exited 0 |}
    | Hazard h => {| shown := [Stdout verdict]; finished := Broken h |}
    | NoFuel => {| shown := [Stdout verdict]; finished := Spinning |}
    end.

(** *** Folders as trees, for the statements *)

(** What a path leads to: a regular file, something that cannot be opened as
    a folder, or a folder; and what a folder lists: [.] and [..], a
    sub-folder, or another entry with the size [lstat] gives for it, if it
    gives one. *)
Inductive tree : Type :=
  | File (size : Z)
  | Closed
  | Folder (items : list item)
with item : Type :=
  | Dots (name : string)
  | Sub (name : string) (t : tree)
  | Plain (name : string) (size : option Z).

Definition sum_of {A : Type} (f : A → Z) (l : list A) : Z :=
  foldr (λ x acc, f x + acc) 0 l.

(** What an entry adds to the size of its folder, given the totals of the
    sub-folders. *)
Definition item_total (total : tree → Z) (it : item) : Z :=
  match it with
  | Dots _ => 0
  | Sub _ t => total t
  | Plain _ (Some size) => size
  | Plain _ None => 0
  end.

(** The sum the program is after: the sizes of the entries that are not
    folders, and 4096 for every folder. *)
Fixpoint tree_total (t : tree) : Z :=
  match t with
  | File size => size
  | Closed => 0
  | Folder items => 4096 + sum_of (item_total tree_total) items
  end.

(** No entry with a size comes after a sub-folder ([pending]) in the
    listing. *)
Definition tidy_items (tidy : tree → bool) : bool → list item → bool :=
  fix go (pending : bool) (l : list item) : bool :=
    match l with
    | [] => true
    | it :: rest =>
        match it with
        | Dots _ => go pending rest
        | Sub _ t => tidy t && go true rest
        | Plain _ (Some _) => negb pending && go pending rest
        | Plain _ None => go pending rest
        end
    end.

(** In no listing of the tree: the plain [+=] is never run while a task
    exists. *)
Fixpoint tidy (t : tree) : bool :=
  match t with
  | File _ | Closed => true
  | Folder items => tidy_items tidy false items
  end.

(** The entry [e] of the folder at [path] is the item [it]; [shown] tells
    what a sub-folder shows. *)
Definition entry_is (sys : system) (shown : string → tree → Prop) (path : string)
    (e : dirent) (it : item) : Prop :=
  match it with
  | Dots name =>
      d_name e = name ∧ d_is_dir e = true ∧ (name = "." ∨ name = "..")
  | Sub name t =>
      d_name e = name ∧ d_is_dir e = true ∧ name ≠ "." ∧ name ≠ ".."
      ∧ shown (entry_name path e) t
  | Plain name size =>
      d_name e = name ∧ d_is_dir e = false
      ∧ st_size <$> lstat sys (entry_name path e) = size
  end.

(** The file system shows the tree [t] at [path], with folders nested at
    most [depth] deep. *)
Fixpoint shows (sys : system) (depth : nat) (path : string) (t : tree) : Prop :=
  match t with
  | File size =>
      ∃ sb, lstat sys path = Some sb ∧ st_is_reg sb = true ∧ st_size sb = size
  | Closed =>
      (∀ sb, lstat sys path = Some sb → st_is_reg sb = false)
      ∧ opendir sys path = None
  | Folder items =>
      match depth with
      | O => False
      | S depth' =>
          (∀ sb, lstat sys path = Some sb → st_is_reg sb = false)
          ∧ ∃ entries, opendir sys path = Some entries
                       ∧ Forall2 (entry_is sys (shows sys depth') path) entries items
      end
  end.

(** Equal as [int]s: equal up to a multiple of 2^32. *)
Definition same_int (a b : Z) : Prop := wrap_int a = wrap_int b.

(** What the sub-folders of a listing add, and the paths of its tasks. *)
Definition sub_total (it : item) : Z :=
  match it with
  | Sub _ t => tree_total t
  | _ => 0
  end.

Definition plain_size (it : item) : Z :=
  match it with
  | Plain _ (Some size) => size
  | _ => 0
  end.

Definition sub_path (path : string) (it : item) : option string :=
  match it with
  | Sub name _ => Some (path +:+ "/" +:+ name)
  | _ => None
  end.

(** The value a task adds. *)
Definition returned_size (walk : string → result (Z * list event)) (name : string) : Z :=
  match walk name with
  | Returned (r, _) => r
  | _ => 0
  end.

(** A small file system for the examples: [/d] holds [a] (10 bytes), the
    folder [s], which holds [b] (2 bytes), and a name that [lstat] does not
    find. *)
Definition sys_small : system :=
  {| lstat := λ p,
       if String.eqb p "/d" then Some {| st_is_reg := false; st_size := 4096 |}
       else if String.eqb p "/d/a" then Some {| st_is_reg := true; st_size := 10 |}
       else if String.eqb p "/d/s" then Some {| st_is_reg := false; st_size := 4096 |}
       else if String.eqb p "/d/s/b" then Some {| st_is_reg := true; st_size := 2 |}
       else None;
     opendir := λ p,
       if String.eqb p "/d" then
         Some [ {| d_name := "."; d_is_dir := true |};
                {| d_name := ".."; d_is_dir := true |};
                {| d_name := "a"; d_is_dir := false |};
                {| d_name := "gone"; d_is_dir := false |};
                {| d_name := "s"; d_is_dir := true |} ]
       else if String.eqb p "/d/s" then
         Some [ {| d_name := "b"; d_is_dir := false |};
                {| d_name := "."; d_is_dir := true |};
                {| d_name := ".."; d_is_dir := true |} ]
       else None;
     malloc_ok := λ _, true; strdup_ok := λ _, true; task_pick := λ _ _, O |}.

Definition tree_small : tree :=
  Folder [Dots "."; Dots ".."; Plain "a" (Some 10); Plain "gone" None;
          Sub "s" (Folder [Plain "b" (Some 2); Dots "."; Dots ".."])].

(** The same folder listed with the sub-folder before the file. *)
Definition sys_untidy : system :=
  {| lstat := lstat sys_small;
     opendir := λ p,
       if String.eqb p "/d" then
         Some [ {| d_name := "s"; d_is_dir := true |};
                {| d_name := "a"; d_is_dir := false |} ]
       else opendir sys_small p;
     malloc_ok := λ _, true; strdup_ok := λ _, true; task_pick := λ _ _, O |}.

(** The small file system with no memory for the name of [/d/a]. *)
Definition sys_full : system :=
  {| lstat := lstat sys_small; opendir := opendir sys_small;
     malloc_ok := λ name, negb (String.eqb name "/d/a");
     strdup_ok := λ _, true; task_pick := λ _ _, O |}.

End FolderSize.

(** * Properties *)

(** ** The scenarios of the specification *)

Example sort_scenario_1 :
  merge_sort_recursive rt_in_order [] 0 (0 - 1) = Done []
  ∧ is_array_sorted [] 0 = Done 1.
Proof. split; reflexivity. Qed.

Example sort_scenario_2 : merge_sort_recursive rt_in_order [5] 0 0 = Done [5].
Proof. reflexivity. Qed.

Example sort_scenario_3 : merge_sort_recursive rt_in_order [3; 1; 2] 0 2 = Done [1; 2; 3].
Proof. reflexivity. Qed.

Example sort_scenario_4 :
  merge_sort_recursive rt_reversed [5; 4; 3; 2; 1] 0 4 = Done [1; 2; 3; 4; 5].
Proof. reflexivity. Qed.

Example sort_scenario_5 :
  merge_sort_recursive rt_in_order [2; 1; 2; 1] 0 3 = Done [1; 1; 2; 2]
  ∧ is_array_sorted [1; 1; 2; 2] 4 = Done 1.
Proof. split; reflexivity. Qed.

Example merge_parallel_backwards :
  merge_parallel rt_reversed [9; 1; 4; 2; 3; 9] 1 2 4 = Done [9; 1; 2; 3; 4; 9].
Proof. reflexivity. Qed.

Example schedule_backwards : omp_schedule (λ _, O) 4 = [3; 2; 1; 0]%nat.
Proof. reflexivity. Qed.

(** 2001 elements take the branch of the tasks and of [merge_parallel]. *)
Example sort_above_threshold :
  merge_sort_recursive rt_reversed (descending 2001) 0 2000 = Done (Z.of_nat <$> seq 0 2001).
Proof. vm_compute. reflexivity. Qed.

Example is_array_sorted_unsorted : is_array_sorted [1; 3; 2] 3 = Done 0.
Proof. reflexivity. Qed.

Example is_array_sorted_no_read :
  is_array_sorted [] 1 = Done 1 ∧ is_array_sorted [] 0 = Done 1
  ∧ is_array_sorted [] 2 = Undefined OutOfBounds.
Proof. repeat split. Qed.

(** ** Arithmetic that stays in range is exact *)

Lemma wrap_int_id z : INT_MIN ≤ z ≤ INT_MAX → wrap_int z = z.
Proof.
  unfold wrap_int, INT_MIN, INT_MAX. intros Hz.
  rewrite Z.mod_small by lia. lia.
Qed.

Lemma int_add_id a b : INT_MIN ≤ a + b ≤ INT_MAX → int_add a b = a + b.
Proof. apply wrap_int_id. Qed.

Lemma int_sub_id a b : INT_MIN ≤ a - b ≤ INT_MAX → int_sub a b = a - b.
Proof. apply wrap_int_id. Qed.

Lemma int_div_2 a : 0 ≤ a ≤ INT_MAX → int_div a 2 = a `div` 2.
Proof.
  intros Ha. unfold int_div. rewrite Z.quot_div_nonneg by lia.
  apply wrap_int_id. unfold INT_MIN, INT_MAX in *.
  pose proof (Z.div_pos a 2). pose proof (Z.div_le_upper_bound a 2 a). lia.
Qed.

(** ** Reading and writing *)

Lemma arr_load_lookup (arr : list Z) (q : nat) v :
  arr !! q = Some v → arr_load arr (Z.of_nat q) = Done v.
Proof.
  intros Hq. unfold arr_load.
  destruct (Z.ltb_spec (Z.of_nat q) 0); [lia|]. by rewrite Nat2Z.id, Hq.
Qed.

Lemma arr_store_insert (arr : list Z) (q : nat) v :
  (q < length arr)%nat → arr_store arr (Z.of_nat q) v = Done (<[q := v]> arr).
Proof.
  intros Hq. unfold arr_store.
  destruct (Z.leb_spec 0 (Z.of_nat q)); [|lia].
  destruct (Z.ltb_spec (Z.of_nat q) (Z.of_nat (length arr))); [|lia].
  by rewrite Nat2Z.id.
Qed.

Lemma ptr_load_lookup (b : buffer) (q : nat) v :
  b !! q = Some (Some v) → ptr_load (Some b) (Z.of_nat q) = Done v.
Proof.
  intros Hq. unfold ptr_load.
  destruct (Z.ltb_spec (Z.of_nat q) 0); [lia|]. by rewrite Nat2Z.id, Hq.
Qed.

Lemma ptr_store_insert (b : buffer) (q : nat) v :
  (q < length b)%nat →
  ptr_store (Some b) (Z.of_nat q) v = Done (Some (<[q := Some v]> b)).
Proof.
  intros Hq. unfold ptr_store.
  destruct (Z.leb_spec 0 (Z.of_nat q)); [|lia].
  destruct (Z.ltb_spec (Z.of_nat q) (Z.of_nat (length b))); [|lia].
  by rewrite Nat2Z.id.
Qed.

(** ** The loop rule: an invariant and a variant *)

Lemma while_loop_rule {S : Type} (I : S → Prop) (m : S → nat)
    (cond : S → bool) (body : S → outcome S) :
  (∀ s, I s → cond s = true → ∃ s', body s = Done s' ∧ I s' ∧ (m s' < m s)%nat) →
  ∀ fuel s, I s → (m s ≤ fuel)%nat →
    ∃ s', while_loop fuel cond body s = Done s' ∧ I s' ∧ cond s' = false.
Proof.
  intros Hstep fuel. induction fuel as [|fuel IH]; intros s HI Hm; simpl.
  - destruct (cond s) eqn:Hc; [|by eauto].
    destruct (Hstep s HI Hc) as (s' & _ & _ & Hlt). lia.
  - destruct (cond s) eqn:Hc; [|by eauto].
    destruct (Hstep s HI Hc) as (s' & Hb & HI' & Hlt).
    rewrite Hb. simpl. apply IH; [done|lia].
Qed.

Lemma while_loop_exit {S : Type} fuel (cond : S → bool) body (s : S) :
  cond s = false → while_loop fuel cond body s = Done s.
Proof. intros Hc. destruct fuel; simpl; by rewrite Hc. Qed.

Lemma outcome_bind_ext {A B : Type} (m : outcome A) (k k' : A → outcome B) :
  (∀ a, k a = k' a) → m ≫= k = m ≫= k'.
Proof. intros Hk. destruct m; simpl; auto. Qed.

(** ** Every schedule runs each iteration once *)

Lemma omp_schedule_Permutation pick n : omp_schedule pick n ≡ₚ seq 0 n.
Proof.
  induction n as [|n IH]; [done|]. cbn [omp_schedule].
  rewrite <-Permutation_middle, take_drop, IH, seq_S.
  apply Permutation_cons_append.
Qed.

Lemma omp_schedule_in_order n : omp_schedule (λ m, m) n = seq 0 n.
Proof.
  induction n as [|n IH]; [done|]. cbn [omp_schedule].
  rewrite Nat.mod_small by lia.
  assert (length (omp_schedule (λ m, m) n) = n) as Hlen.
  { by rewrite IH, length_seq. }
  rewrite take_ge, drop_ge by lia. rewrite IH, seq_S. done.
Qed.

(** ** The copy-out loops *)

Lemma copy_cell_run (A X C : list Z) (b : buffer) (q : nat) v :
  Z.of_nat (length A + length X) ≤ INT_MAX + 1 →
  X !! q = Some v →
  (q < length b)%nat →
  copy_cell (A ++ X ++ C) (Z.of_nat (length A)) (Z.of_nat q) (Some b)
  = Done (Some (<[q := Some v]> b)).
Proof.
  intros Hmax Hv Hq. pose proof (lookup_lt_Some _ _ _ Hv) as HqX.
  unfold copy_cell.
  rewrite int_add_id by (unfold INT_MIN, INT_MAX in *; lia).
  rewrite <-Nat2Z.inj_add.
  rewrite (arr_load_lookup _ _ v).
  - cbn [mbind outcome_bind]. by rewrite ptr_store_insert.
  - rewrite lookup_app_r by lia.
    replace (length A + q - length A)%nat with q by lia.
    by rewrite lookup_app_l.
Qed.

(** Whatever the order of the iterations, the cells they name receive the
    run [X] that starts at [base = length A]. *)
Lemma for_each_copy (A X C : list Z) :
  Z.of_nat (length A + length X) ≤ INT_MAX + 1 →
  ∀ (iters : list nat) (b : buffer),
    length b = length X →
    Forall (λ q, q < length X)%nat iters →
    ∃ b', for_each (copy_cell (A ++ X ++ C) (Z.of_nat (length A)))
            (Z.of_nat <$> iters) (Some b) = Done (Some b')
          ∧ length b' = length X
          ∧ ∀ q, b' !! q = if decide (q ∈ iters) then Some (X !! q) else b !! q.
Proof.
  intros Hmax iters. induction iters as [|it rest IH]; intros b Hb Hin.
  - exists b. split_and!; [done..|]. intros q.
    by rewrite decide_False by apply not_elem_of_nil.
  - apply Forall_cons in Hin as [Hit Hrest].
    destruct (lookup_lt_is_Some_2 X it Hit) as [v Hv].
    assert (length (<[it := Some v]> b) = length X) as Hb' by by rewrite length_insert.
    destruct (IH _ Hb' Hrest) as (b' & Hrun & Hlen & Hlook).
    exists b'. split_and!; [|done|].
    + cbn [fmap list_fmap for_each].
      rewrite (copy_cell_run A X C b it v) by (done || lia). exact Hrun.
    + intros q. rewrite Hlook. destruct (decide (q ∈ rest)) as [Hq|Hq].
      * by rewrite decide_True by (by apply list_elem_of_further).
      * destruct (decide (q = it)) as [->|Hne].
        -- rewrite decide_True by apply list_elem_of_here.
           rewrite list_lookup_insert_eq by lia. by rewrite Hv.
        -- rewrite decide_False by (rewrite elem_of_cons; tauto).
           by rewrite list_lookup_insert_ne.
Qed.

Lemma copy_out_any_order (A X C : list Z) (iters : list nat) (b : buffer) :
  Z.of_nat (length A + length X) ≤ INT_MAX + 1 →
  length b = length X →
  iters ≡ₚ seq 0 (length X) →
  for_each (copy_cell (A ++ X ++ C) (Z.of_nat (length A)))
    (Z.of_nat <$> iters) (Some b) = Done (Some (Some <$> X)).
Proof.
  intros Hmax Hb Hperm.
  assert (Forall (λ q, q < length X)%nat iters) as Hin.
  { apply Forall_forall. intros q Hq. rewrite Hperm in Hq.
    apply elem_of_seq in Hq. lia. }
  destruct (for_each_copy A X C Hmax iters b Hb Hin) as (b' & Hrun & Hlen & Hlook).
  rewrite Hrun. do 2 f_equal. apply list_eq. intros q.
  rewrite Hlook, list_lookup_fmap.
  destruct (decide (q < length X)%nat) as [Hq|Hq].
  - rewrite decide_True by (rewrite Hperm; apply elem_of_seq; lia).
    destruct (lookup_lt_is_Some_2 X q Hq) as [v ->]. done.
  - rewrite decide_False by (rewrite Hperm, elem_of_seq; lia).
    rewrite !lookup_ge_None_2 by lia. done.
Qed.

Lemma seqZ_0_of_nat (n : nat) : seqZ 0 (Z.of_nat n) = Z.of_nat <$> seq 0 n.
Proof.
  unfold seqZ. rewrite Nat2Z.id. apply list_fmap_ext. intros _ q _. lia.
Qed.

Lemma for_loop_copy (arr A X C : list Z) (b : buffer) (base n : Z) :
  arr = A ++ X ++ C → base = Z.of_nat (length A) → n = Z.of_nat (length X) →
  Z.of_nat (length A + length X) ≤ INT_MAX + 1 →
  length b = length X →
  for_loop n (copy_cell arr base) (Some b) = Done (Some (Some <$> X)).
Proof.
  intros -> -> -> Hmax Hb. unfold for_loop. rewrite seqZ_0_of_nat.
  by apply copy_out_any_order.
Qed.

Lemma omp_for_copy pick (arr A X C : list Z) (b : buffer) (base n : Z) :
  arr = A ++ X ++ C → base = Z.of_nat (length A) → n = Z.of_nat (length X) →
  Z.of_nat (length A + length X) ≤ INT_MAX + 1 →
  length b = length X →
  omp_for pick n (copy_cell arr base) (Some b) = Done (Some (Some <$> X)).
Proof.
  intros -> -> -> Hmax Hb. unfold omp_for. rewrite Nat2Z.id.
  apply copy_out_any_order; [done..|]. apply omp_schedule_Permutation.
Qed.

Lemma for_each_copy_null (A X C : list Z) (iters : list nat) :
  Z.of_nat (length A + length X) ≤ INT_MAX + 1 →
  iters ≠ [] →
  Forall (λ q, q < length X)%nat iters →
  for_each (copy_cell (A ++ X ++ C) (Z.of_nat (length A))) (Z.of_nat <$> iters) None
  = Undefined NullPointer.
Proof.
  intros Hmax Hne Hin. destruct iters as [|q rest]; [done|].
  apply Forall_cons in Hin as [Hq _].
  destruct (lookup_lt_is_Some_2 X q Hq) as [v Hv].
  cbn [fmap list_fmap for_each]. unfold copy_cell.
  rewrite int_add_id by (unfold INT_MIN, INT_MAX in *; lia).
  rewrite <-Nat2Z.inj_add, (arr_load_lookup _ _ v); [done|].
  rewrite lookup_app_r by lia.
  replace (length A + q - length A)%nat with q by lia.
  by rewrite lookup_app_l.
Qed.

Lemma omp_for_copy_null pick (arr A X C : list Z) (base n : Z) :
  arr = A ++ X ++ C → base = Z.of_nat (length A) → n = Z.of_nat (length X) →
  Z.of_nat (length A + length X) ≤ INT_MAX + 1 →
  (0 < length X)%nat →
  omp_for pick n (copy_cell arr base) None = Undefined NullPointer.
Proof.
  intros -> -> -> Hmax HX. unfold omp_for. rewrite Nat2Z.id.
  pose proof (omp_schedule_Permutation pick (length X)) as Hperm.
  apply for_each_copy_null; [done| |].
  - intros Hnil. rewrite Hnil in Hperm. apply Permutation_length in Hperm.
    rewrite length_seq in Hperm. simpl in Hperm. lia.
  - apply Forall_forall. intros q Hq. rewrite Hperm in Hq.
    apply elem_of_seq in Hq. lia.
Qed.

(** ** The interleave phase *)

Section interleave.
Variables A X Y B : list Z.
Hypothesis HX : (0 < length X)%nat.
Hypothesis HY : (0 < length Y)%nat.
Hypothesis Hmax : Z.of_nat (length A + length X + length Y) ≤ INT_MAX + 1.

Lemma merge_at_start :
  merge_at A X Y B 0 0 {| ms_i := 0; ms_j := 0; ms_k := Z.of_nat (length A);
                  ms_arr := A ++ X ++ Y ++ B |}.
Proof.
  exists [], (X ++ Y). cbn [ms_i ms_j ms_k ms_arr]. split_and!; try done; try lia.
  - rewrite wrap_int_id; unfold INT_MIN, INT_MAX in *; lia.
  - by rewrite <-(assoc_L (++)).
  - rewrite length_app. lia.
Qed.

Lemma store_next (W T : list Z) (n : nat) v :
  length W = n → (0 < length T)%nat →
  Z.of_nat (length A + n) ≤ INT_MAX →
  arr_store (A ++ W ++ T ++ B) (wrap_int (Z.of_nat (length A + n))) v
  = Done (A ++ (W ++ [v]) ++ drop 1 T ++ B).
Proof.
  intros HW HT Hn. rewrite wrap_int_id by (unfold INT_MIN; lia).
  destruct T as [|t T]; [simpl in HT; lia|].
  rewrite arr_store_insert by (rewrite !length_app; simpl; lia).
  f_equal. rewrite insert_app_r. f_equal.
  rewrite <-HW, <-(Nat.add_0_r (length W)), insert_app_r. simpl.
  by rewrite <-(assoc_L (++)).
Qed.

(** Writing the head of the rest of [X]. *)
Lemma push_left (a b : nat) (s : merge_state) x :
  merge_at A X Y B a b s → X !! a = Some x →
  list_merge Z.le (drop a X) (drop b Y) = x :: list_merge Z.le (drop (S a) X) (drop b Y) →
  ∃ arr', arr_store (ms_arr s) (ms_k s) x = Done arr'
    ∧ merge_at A X Y B (S a) b {| ms_i := int_add (ms_i s) 1; ms_j := ms_j s;
                          ms_k := int_add (ms_k s) 1; ms_arr := arr' |}.
Proof.
  intros (W & T & Hi & Hj & Ha & Hb & Hk & Harr & HW & HT & Hm) Hx Hhead.
  pose proof (lookup_lt_Some _ _ _ Hx) as HaX.
  eexists. split.
  - rewrite Harr, Hk, <-(assoc_L Nat.add). apply store_next; [done|lia|lia].
  - exists (W ++ [x]), (drop 1 T). cbn [ms_i ms_j ms_k ms_arr].
    split_and!; try done; try lia.
    + rewrite Hi, int_add_id by (unfold INT_MIN, INT_MAX in *; lia). lia.
    + rewrite Hk, wrap_int_id by (unfold INT_MIN, INT_MAX in *; lia).
      unfold int_add. f_equal. lia.
    + rewrite length_app. simpl. lia.
    + rewrite length_drop. lia.
    + by rewrite <-(assoc_L (++)), <-Hm, Hhead.
Qed.

(** Writing the head of the rest of [Y]. *)
Lemma push_right (a b : nat) (s : merge_state) y :
  merge_at A X Y B a b s → Y !! b = Some y →
  list_merge Z.le (drop a X) (drop b Y) = y :: list_merge Z.le (drop a X) (drop (S b) Y) →
  ∃ arr', arr_store (ms_arr s) (ms_k s) y = Done arr'
    ∧ merge_at A X Y B a (S b) {| ms_i := ms_i s; ms_j := int_add (ms_j s) 1;
                          ms_k := int_add (ms_k s) 1; ms_arr := arr' |}.
Proof.
  intros (W & T & Hi & Hj & Ha & Hb & Hk & Harr & HW & HT & Hm) Hy Hhead.
  pose proof (lookup_lt_Some _ _ _ Hy) as HbY.
  eexists. split.
  - rewrite Harr, Hk, <-(assoc_L Nat.add). apply store_next; [done|lia|lia].
  - exists (W ++ [y]), (drop 1 T). cbn [ms_i ms_j ms_k ms_arr].
    split_and!; try done; try lia.
    + rewrite Hj, int_add_id by (unfold INT_MIN, INT_MAX in *; lia). lia.
    + rewrite Hk, wrap_int_id by (unfold INT_MIN, INT_MAX in *; lia).
      unfold int_add. f_equal. lia.
    + rewrite length_app. simpl. lia.
    + rewrite length_drop. lia.
    + by rewrite <-(assoc_L (++)), <-Hm, Hhead.
Qed.

Lemma merge_at_pos (a b : nat) (s : merge_state) :
  merge_at A X Y B a b s →
  ms_i s = Z.of_nat a ∧ ms_j s = Z.of_nat b ∧ (a ≤ length X)%nat ∧ (b ≤ length Y)%nat.
Proof. intros (W & T & Hi & Hj & Ha & Hb & _). done. Qed.

Lemma load_run (V : list Z) (q : nat) v :
  V !! q = Some v → ptr_load (Some (Some <$> V)) (Z.of_nat q) = Done v.
Proof. intros Hv. apply ptr_load_lookup. by rewrite list_lookup_fmap, Hv. Qed.

Local Abbreviation L := (Some (Some <$> X)).
Local Abbreviation R := (Some (Some <$> Y)).
Local Abbreviation n1 := (Z.of_nat (length X)).
Local Abbreviation n2 := (Z.of_nat (length Y)).

Lemma take_smaller_step (s : merge_state) :
  (∃ a b, merge_at A X Y B a b s) →
  (ms_i s <? n1) && (ms_j s <? n2) = true →
  ∃ s', take_smaller L R s = Done s'
    ∧ (∃ a b, merge_at A X Y B a b s') ∧ (remaining X Y s' < remaining X Y s)%nat.
Proof.
  intros (a & b & Hat) Hcond.
  destruct (merge_at_pos _ _ _ Hat) as (Hi & Hj & _ & _).
  apply andb_true_iff in Hcond as [Hc1%Z.ltb_lt Hc2%Z.ltb_lt].
  rewrite Hi in Hc1. rewrite Hj in Hc2.
  destruct (lookup_lt_is_Some_2 X a) as [x Hx]; [lia|].
  destruct (lookup_lt_is_Some_2 Y b) as [y Hy]; [lia|].
  unfold take_smaller. rewrite Hi, Hj, (load_run X a x Hx), (load_run Y b y Hy).
  cbn [mbind outcome_bind]. rewrite <-Hi, <-Hj.
  destruct (Z.leb_spec x y) as [Hle|Hgt].
  - destruct (push_left a b s x Hat Hx) as (arr' & -> & Hat').
    { rewrite (drop_S X x a Hx), (drop_S Y y b Hy), list_merge_cons.
      by rewrite decide_True. }
    cbn [mbind outcome_bind]. eexists. split; [done|]. split; [by eauto|].
    destruct (merge_at_pos _ _ _ Hat') as (Hi' & Hj' & _ & _).
    unfold remaining. rewrite Hi', Hj', Hi, Hj. lia.
  - destruct (push_right a b s y Hat Hy) as (arr' & -> & Hat').
    { rewrite (drop_S X x a Hx), (drop_S Y y b Hy), list_merge_cons.
      by rewrite decide_False by lia. }
    cbn [mbind outcome_bind]. eexists. split; [done|]. split; [by eauto|].
    destruct (merge_at_pos _ _ _ Hat') as (Hi' & Hj' & _ & _).
    unfold remaining. rewrite Hi', Hj', Hi, Hj. lia.
Qed.

Lemma take_left_step (s : merge_state) :
  (∃ a, merge_at A X Y B a (length Y) s) →
  (ms_i s <? n1) = true →
  ∃ s', take_left L s = Done s'
    ∧ (∃ a, merge_at A X Y B a (length Y) s') ∧ (remaining X Y s' < remaining X Y s)%nat.
Proof.
  intros (a & Hat) Hc1%Z.ltb_lt.
  destruct (merge_at_pos _ _ _ Hat) as (Hi & Hj & _ & _).
  rewrite Hi in Hc1.
  destruct (lookup_lt_is_Some_2 X a) as [x Hx]; [lia|].
  unfold take_left. rewrite Hi, (load_run X a x Hx).
  cbn [mbind outcome_bind]. rewrite <-Hi.
  destruct (push_left a (length Y) s x Hat Hx) as (arr' & -> & Hat').
  { rewrite (drop_S X x a Hx), drop_all. by rewrite !list_merge_nil_r. }
  cbn [mbind outcome_bind]. eexists. split; [done|]. split; [by eauto|].
  destruct (merge_at_pos _ _ _ Hat') as (Hi' & Hj' & _ & _).
  unfold remaining. rewrite Hi', Hj', Hi, Hj. lia.
Qed.

Lemma take_right_step (s : merge_state) :
  (∃ b, merge_at A X Y B (length X) b s) →
  (ms_j s <? n2) = true →
  ∃ s', take_right R s = Done s'
    ∧ (∃ b, merge_at A X Y B (length X) b s') ∧ (remaining X Y s' < remaining X Y s)%nat.
Proof.
  intros (b & Hat) Hc2%Z.ltb_lt.
  destruct (merge_at_pos _ _ _ Hat) as (Hi & Hj & _ & _).
  rewrite Hj in Hc2.
  destruct (lookup_lt_is_Some_2 Y b) as [y Hy]; [lia|].
  unfold take_right. rewrite Hj, (load_run Y b y Hy).
  cbn [mbind outcome_bind]. rewrite <-Hj.
  destruct (push_right (length X) b s y Hat Hy) as (arr' & -> & Hat').
  { rewrite (drop_S Y y b Hy), drop_all. by rewrite !list_merge_nil_l. }
  cbn [mbind outcome_bind]. eexists. split; [done|]. split; [by eauto|].
  destruct (merge_at_pos _ _ _ Hat') as (Hi' & Hj' & _ & _).
  unfold remaining. rewrite Hi', Hj', Hi, Hj. lia.
Qed.

(** The three loops leave the merge of the two runs in their place. *)
Lemma interleave_runs :
  interleave (A ++ X ++ Y ++ B) (Z.of_nat (length A))
    (Z.of_nat (length X)) (Z.of_nat (length Y))
    (Some (Some <$> X)) (Some (Some <$> Y))
  = Done (A ++ list_merge Z.le X Y ++ B).
Proof.
  unfold interleave. rewrite !Nat2Z.id.
  (* first loop *)
  destruct (while_loop_rule (λ s, ∃ a b, merge_at A X Y B a b s) (remaining X Y)
              (λ s, (ms_i s <? n1) && (ms_j s <? n2)) (take_smaller L R)
              take_smaller_step (length X + length Y)
              {| ms_i := 0; ms_j := 0; ms_k := Z.of_nat (length A);
                 ms_arr := A ++ X ++ Y ++ B |})
    as (s1 & -> & (a & b & Hat1) & Hc1).
  { exists 0%nat, 0%nat. apply merge_at_start. }
  { unfold remaining. cbn [ms_i ms_j]. lia. }
  cbn [mbind outcome_bind].
  destruct (merge_at_pos _ _ _ Hat1) as (Hi1 & Hj1 & Ha1 & Hb1).
  (* second loop *)
  assert (∃ s2, while_loop (length X) (λ s, ms_i s <? n1) (take_left L) s1 = Done s2
                ∧ ∃ b', merge_at A X Y B (length X) b' s2) as (s2 & -> & b2 & Hat2).
  { destruct (decide (a = length X)) as [->|Hne].
    - exists s1. split; [|by eauto].
      apply while_loop_exit. apply Z.ltb_ge. lia.
    - assert (b = length Y) as ->.
      { apply andb_false_iff in Hc1 as [Hc%Z.ltb_ge|Hc%Z.ltb_ge]; lia. }
      destruct (while_loop_rule (λ s, ∃ a, merge_at A X Y B a (length Y) s) (remaining X Y)
                  (λ s, ms_i s <? n1) (take_left L) take_left_step (length X) s1)
        as (s2 & Hrun & (a2 & Hat2) & Hc2); [by eauto| |].
      { unfold remaining. rewrite Hi1, Hj1. lia. }
      exists s2. split; [done|]. exists (length Y).
      destruct (merge_at_pos _ _ _ Hat2) as (Hi2 & _ & Ha2 & _).
      apply Z.ltb_ge in Hc2.
      by replace (length X) with a2 by lia. }
  cbn [mbind outcome_bind].
  destruct (merge_at_pos _ _ _ Hat2) as (Hi2 & Hj2 & _ & Hb2).
  (* third loop *)
  destruct (while_loop_rule (λ s, ∃ b, merge_at A X Y B (length X) b s) (remaining X Y)
              (λ s, ms_j s <? n2) (take_right R) take_right_step (length Y) s2)
    as (s3 & -> & (b3 & Hat3) & Hc3); [by eauto| |].
  { unfold remaining. rewrite Hi2, Hj2. lia. }
  cbn [mbind outcome_bind]. f_equal.
  destruct Hat3 as (W & T & Hi3 & Hj3 & _ & Hb3 & _ & -> & HW & HT & Hm).
  apply Z.ltb_ge in Hc3.
  assert (b3 = length Y) as -> by lia.
  rewrite !drop_all, list_merge_nil_l, app_nil_r in Hm. subst W.
  destruct T; [done|simpl in HT; lia].
Qed.
End interleave.

(** ** The merges on two adjacent runs *)

Lemma calloc_ok_cells (n : Z) :
  0 ≤ n ≤ INT_MAX → calloc true n = Some (replicate (Z.to_nat n) (Some 0)).
Proof.
  intros Hn. unfold calloc, calloc_zeroed.
  destruct (Z.leb_spec 0 n); [|lia].
  destruct (Z.leb_spec (4 * n) SIZE_MAX); [|unfold SIZE_MAX, INT_MAX in *; lia].
  simpl. by rewrite fmap_replicate.
Qed.

Section merge_runs.
Variables (arr A X Y B : list Z) (left mid right : Z).
Hypothesis Harr : arr = A ++ X ++ Y ++ B.
Hypothesis Hleft : left = Z.of_nat (length A).
Hypothesis Hmid : mid = left + Z.of_nat (length X) - 1.
Hypothesis Hright : right = mid + Z.of_nat (length Y).
Hypothesis HX : (0 < length X)%nat.
Hypothesis HY : (0 < length Y)%nat.
Hypothesis Hint : right ≤ INT_MAX.

Lemma merge_n1 : int_add (int_sub mid left) 1 = Z.of_nat (length X).
Proof.
  rewrite int_sub_id by (unfold INT_MIN, INT_MAX in *; lia).
  rewrite int_add_id by (unfold INT_MIN, INT_MAX in *; lia). lia.
Qed.

Lemma merge_n2 : int_sub right mid = Z.of_nat (length Y).
Proof. rewrite int_sub_id by (unfold INT_MIN, INT_MAX in *; lia). lia. Qed.

Lemma merge_mid1 : int_add mid 1 = Z.of_nat (length (A ++ X)).
Proof.
  rewrite int_add_id by (unfold INT_MIN, INT_MAX in *; lia).
  rewrite length_app. lia.
Qed.

Lemma merge_sequential_runs :
  merge_sequential arr left mid right = Done (A ++ list_merge Z.le X Y ++ B).
Proof.
  unfold merge_sequential. rewrite merge_n1, merge_n2.
  unfold vla. rewrite !(proj2 (Z.ltb_lt 0 _)) by lia. cbn [mbind outcome_bind].
  rewrite (for_loop_copy arr A X (Y ++ B) _ left (Z.of_nat (length X)));
    [|done|done|done|lia|by rewrite length_replicate, Nat2Z.id].
  cbn [mbind outcome_bind].
  rewrite (for_loop_copy arr (A ++ X) Y B _ (int_add mid 1) (Z.of_nat (length Y)));
    [|by rewrite Harr, <-(assoc_L (++))|apply merge_mid1|done
     |rewrite length_app; lia|by rewrite length_replicate, Nat2Z.id].
  cbn [mbind outcome_bind].
  rewrite Harr, Hleft. apply interleave_runs; [done|done|lia].
Qed.

Lemma merge_parallel_runs (rt : omp_runtime) :
  calloc_ok rt left right RunL = true →
  calloc_ok rt left right RunR = true →
  merge_parallel rt arr left mid right = Done (A ++ list_merge Z.le X Y ++ B).
Proof.
  intros HokL HokR.
  unfold merge_parallel. rewrite merge_n1, merge_n2, HokL, HokR.
rewrite !calloc_ok_cells by (unfold INT_MAX in *; lia).
  rewrite (omp_for_copy _ arr A X (Y ++ B) _ left (Z.of_nat (length X)));
    [|done|done|done|lia|by rewrite length_replicate, Nat2Z.id].
  cbn [mbind outcome_bind].
  rewrite (omp_for_copy _ arr (A ++ X) Y B _ (int_add mid 1) (Z.of_nat (length Y)));
    [|by rewrite Harr, <-(assoc_L (++))|apply merge_mid1|done
     |rewrite length_app; lia|by rewrite length_replicate, Nat2Z.id].
  cbn [mbind outcome_bind].
  rewrite Harr, Hleft. apply interleave_runs; [done|done|lia].
Qed.
End merge_runs.

(** ** Ranges of an array as runs *)

Lemma slice_length (arr : list Z) (left right : Z) :
  0 ≤ left → left ≤ right + 1 → right < Z.of_nat (length arr) →
  Z.of_nat (length (slice arr left right)) = right + 1 - left.
Proof.
  intros. unfold slice. rewrite length_take, length_drop. lia.
Qed.

Lemma slice_runs (A X B : list Z) (left right : Z) :
  left = Z.of_nat (length A) → right = left + Z.of_nat (length X) - 1 →
  slice (A ++ X ++ B) left right = X.
Proof.
  intros -> ->. unfold slice. rewrite Nat2Z.id, drop_app_length.
  apply take_app_length'. lia.
Qed.

Lemma slice_from_0 (arr : list Z) (n : Z) : slice arr 0 (n - 1) = take (Z.to_nat n) arr.
Proof. unfold slice. simpl. f_equal. lia. Qed.

(** A range inside the array cuts it into what is before, the range and
    what is after. *)
Lemma range_split (arr : list Z) (left right : Z) :
  0 ≤ left → left ≤ right + 1 → right < Z.of_nat (length arr) →
  arr = take (Z.to_nat left) arr ++ slice arr left right ++ drop (Z.to_nat (right + 1)) arr
  ∧ left = Z.of_nat (length (take (Z.to_nat left) arr)).
Proof.
  intros Hl Hlr Hr. split; [|rewrite length_take; lia].
  unfold slice. rewrite <-(take_drop (Z.to_nat left) arr) at 1. f_equal.
  rewrite <-(take_drop (Z.to_nat (right + 1 - left)) (drop (Z.to_nat left) arr)) at 1.
  f_equal. rewrite drop_drop. f_equal. lia.
Qed.

(** A range with a cut point inside is two adjacent runs. *)
Lemma slice_cut (arr : list Z) (left mid right : Z) :
  0 ≤ left → left ≤ mid + 1 → mid ≤ right → right < Z.of_nat (length arr) →
  slice arr left right = slice arr left mid ++ slice arr (mid + 1) right.
Proof.
  intros Hl Hm Hr Hlen. unfold slice.
  rewrite <-(take_drop (Z.to_nat (mid + 1 - left))
               (take (Z.to_nat (right + 1 - left)) (drop (Z.to_nat left) arr))) at 1.
  rewrite take_take. f_equal; [f_equal; lia|].
  replace (Z.to_nat (mid + 1)) with (Z.to_nat left + Z.to_nat (mid + 1 - left))%nat by lia.
  rewrite <-drop_drop.
  rewrite (take_drop_commute (drop (Z.to_nat left) arr)
             (Z.to_nat (right + 1 - (mid + 1))) (Z.to_nat (mid + 1 - left))).
  do 2 f_equal. lia.
Qed.

Lemma frame_lookup (A X X' B : list Z) (q : nat) :
  length X' = length X →
  (q < length A ∨ length A + length X ≤ q)%nat →
  (A ++ X' ++ B) !! q = (A ++ X ++ B) !! q.
Proof.
  intros Hlen [Hq|Hq].
  - by rewrite !lookup_app_l.
  - rewrite !(lookup_app_r A) by lia. rewrite !lookup_app_r by lia. by rewrite Hlen.
Qed.

Lemma valid_triple_runs (arr : list Z) (left mid right : Z) :
  0 ≤ left → left ≤ mid → mid < right → right < Z.of_nat (length arr) →
  ∃ A B : list Z,
    arr = A ++ slice arr left mid ++ slice arr (mid + 1) right ++ B
    ∧ left = Z.of_nat (length A)
    ∧ mid = left + Z.of_nat (length (slice arr left mid)) - 1
    ∧ right = mid + Z.of_nat (length (slice arr (mid + 1) right))
    ∧ (0 < length (slice arr left mid))%nat
    ∧ (0 < length (slice arr (mid + 1) right))%nat.
Proof.
  intros Hl Hm Hr Hlen.
  destruct (range_split arr left right) as [Harr HA]; [lia..|].
  rewrite (slice_cut arr left mid right) in Harr by lia.
  rewrite <-(assoc_L (++)) in Harr.
  pose proof (slice_length arr left mid). pose proof (slice_length arr (mid + 1) right).
  eexists _, _. split; [exact Harr|]. split; [exact HA|]. lia.
Qed.

(** ** The merges on a range of the array *)

Lemma merge_sequential_done (arr : list Z) (left mid right : Z) :
  0 ≤ left → left ≤ mid → mid < right → right < Z.of_nat (length arr) → right ≤ INT_MAX →
  ∃ arr', merge_sequential arr left mid right = Done arr'
    ∧ length arr' = length arr
    ∧ slice arr' left right
      = list_merge Z.le (slice arr left mid) (slice arr (mid + 1) right)
    ∧ ∀ q : nat, (Z.of_nat q < left ∨ right < Z.of_nat q) → arr' !! q = arr !! q.
Proof.
  intros Hl Hm Hr Hlen Hint.
  destruct (valid_triple_runs arr left mid right)
    as (A & B & Harr & HA & Hmid & Hright & HX & HY); [done..|].
  set (X := slice arr left mid) in *. set (Y := slice arr (mid + 1) right) in *.
  pose proof (Permutation_length (merge_Permutation Z.le X Y)) as Hml.
  rewrite length_app in Hml.
  assert (arr = A ++ (X ++ Y) ++ B) as Harr' by by rewrite <-(assoc_L (++)).
  exists (A ++ list_merge Z.le X Y ++ B). split_and!.
  - by apply merge_sequential_runs.
  - trans (length (A ++ (X ++ Y) ++ B)); [|by rewrite <-Harr'].
    by rewrite !length_app, Hml.
  - apply slice_runs; [done|lia].
  - intros q Hq. trans ((A ++ (X ++ Y) ++ B) !! q); [|by rewrite <-Harr'].
    apply frame_lookup; [by rewrite Hml, length_app|rewrite length_app; lia].
Qed.

(** When the [calloc] of [L] or of [R] fails, the copy loop stores through
    the null pointer: there is no check, no error return, and no outcome
    that a caller could test. *)
Lemma merge_parallel_failed_calloc (rt : omp_runtime) (arr : list Z) (left mid right : Z) :
  0 ≤ left → left ≤ mid → mid < right → right < Z.of_nat (length arr) → right ≤ INT_MAX →
  calloc_ok rt left right RunL = false ∨ calloc_ok rt left right RunR = false →
  merge_parallel rt arr left mid right = Undefined NullPointer.
Proof.
  intros Hl Hm Hr Hlen Hint Hfail.
  destruct (valid_triple_runs arr left mid right)
    as (A & B & Harr & HA & Hmid & Hright & HX & HY); [done..|].
  set (X := slice arr left mid) in *. set (Y := slice arr (mid + 1) right) in *.
  unfold merge_parallel.
  rewrite (merge_n1 A X Y left mid right), (merge_n2 A X Y left mid right) by done.
  destruct (calloc_ok rt left right RunL) eqn:HokL.
  - destruct Hfail as [|HokR]; [done|]. rewrite HokR.
    rewrite calloc_ok_cells by (unfold INT_MAX in *; lia).
    rewrite (omp_for_copy _ arr A X (Y ++ B) _ left (Z.of_nat (length X)));
      [|done|done|done|lia|by rewrite length_replicate, Nat2Z.id].
    cbn [mbind outcome_bind]. unfold calloc, calloc_zeroed. cbn [andb].
    rewrite (omp_for_copy_null _ arr (A ++ X) Y B (int_add mid 1) (Z.of_nat (length Y)));
      [done|by rewrite Harr, <-(assoc_L (++))|by apply (merge_mid1 A X Y left mid right)|done
      |rewrite length_app; lia|done].
  - unfold calloc at 1, calloc_zeroed at 1. cbn [andb].
    by rewrite (omp_for_copy_null _ arr A X (Y ++ B) left (Z.of_nat (length X)));
      [|done|done|done|lia|done].
Qed.
(** [merge_parallel] is [merge_sequential] behind two allocations. *)
Lemma merge_parallel_outcome (rt : omp_runtime) (arr : list Z) (left mid right : Z) :
  0 ≤ left → left ≤ mid → mid < right → right < Z.of_nat (length arr) → right ≤ INT_MAX →
  merge_parallel rt arr left mid right
  = if calloc_ok rt left right RunL && calloc_ok rt left right RunR
    then merge_sequential arr left mid right
    else Undefined NullPointer.
Proof.
  intros Hl Hm Hr Hlen Hint.
  destruct (calloc_ok rt left right RunL) eqn:HokL;
    [destruct (calloc_ok rt left right RunR) eqn:HokR|]; cbn [andb].
  - destruct (valid_triple_runs arr left mid right)
      as (A & B & Harr & HA & Hmid & Hright & HX & HY); [done..|].
    rewrite (merge_sequential_runs arr A _ _ B left mid right) by done.
    by apply merge_parallel_runs.
  - apply merge_parallel_failed_calloc; auto.
  - apply merge_parallel_failed_calloc; auto.
Qed.

Lemma merge_parallel_done (rt : omp_runtime) (arr arr' : list Z) (left mid right : Z) :
  0 ≤ left → left ≤ mid → mid < right → right < Z.of_nat (length arr) → right ≤ INT_MAX →
  merge_parallel rt arr left mid right = Done arr' →
  merge_sequential arr left mid right = Done arr'.
Proof.
  intros Hl Hm Hr Hlen Hint. rewrite merge_parallel_outcome by done.
  by destruct (calloc_ok rt left right RunL && calloc_ok rt left right RunR).
Qed.

(** C3: when [arr[left..mid]] and [arr[mid+1..right]] are each sorted in
    non-decreasing order, [merge_sequential] returns an array whose range
    [left..right] is sorted in non-decreasing order and holds the same values
    with the same multiplicities as before the call; so does every array
    that [merge_parallel] returns, and it returns one when its two buffers
    are allocated. *)
Theorem merge_sorts_adjacent_runs (rt : omp_runtime) (arr : list Z) (left mid right : Z) :
  0 ≤ left → left ≤ mid → mid < right → right < Z.of_nat (length arr) → right ≤ INT_MAX →
  Sorted Z.le (slice arr left mid) →
  Sorted Z.le (slice arr (mid + 1) right) →
  (∃ arr', merge_sequential arr left mid right = Done arr'
           ∧ Sorted Z.le (slice arr' left right)
           ∧ slice arr' left right ≡ₚ slice arr left right)
  ∧ (∀ arr', merge_parallel rt arr left mid right = Done arr' →
             Sorted Z.le (slice arr' left right)
             ∧ slice arr' left right ≡ₚ slice arr left right)
  ∧ (calloc_ok rt left right RunL = true → calloc_ok rt left right RunR = true →
     ∃ arr', merge_parallel rt arr left mid right = Done arr').
Proof.
  intros Hl Hm Hr Hlen Hint HsX HsY.
  destruct (merge_sequential_done arr left mid right) as (arr1 & Hseq & _ & Hslice & _);
    [done..|].
  assert (Sorted Z.le (slice arr1 left right)
          ∧ slice arr1 left right ≡ₚ slice arr left right) as Hpost.
  { rewrite Hslice. split; [by apply (Sorted_list_merge Z.le)|].
    by rewrite merge_Permutation, (slice_cut arr left mid right) by lia. }
  split_and!.
  - exists arr1. by destruct Hpost.
  - intros arr' Hpar%merge_parallel_done; [|done..].
    rewrite Hseq in Hpar. by injection Hpar as <-.
  - intros HokL HokR. exists arr1.
    by rewrite merge_parallel_outcome, HokL, HokR.
Qed.

Lemma merge_sorts_adjacent_runs_witness :
  (∃ arr', merge_sequential [9; 1; 4; 2; 3; 9] 1 2 4 = Done arr'
           ∧ Sorted Z.le (slice arr' 1 4)
           ∧ slice arr' 1 4 ≡ₚ slice [9; 1; 4; 2; 3; 9] 1 4)
  ∧ (∀ arr', merge_parallel rt_reversed [9; 1; 4; 2; 3; 9] 1 2 4 = Done arr' →
             Sorted Z.le (slice arr' 1 4)
             ∧ slice arr' 1 4 ≡ₚ slice [9; 1; 4; 2; 3; 9] 1 4)
  ∧ (calloc_ok rt_reversed 1 4 RunL = true → calloc_ok rt_reversed 1 4 RunR = true →
     ∃ arr', merge_parallel rt_reversed [9; 1; 4; 2; 3; 9] 1 2 4 = Done arr').
Proof.
  apply (merge_sorts_adjacent_runs rt_reversed [9; 1; 4; 2; 3; 9] 1 2 4);
    try lia; try (simpl; lia); try (unfold INT_MAX; lia).
  - unfold slice. simpl. repeat constructor. lia.
  - unfold slice. simpl. repeat constructor. lia.
Defined.

(** C4: on a range of the array cut at [mid], every array that
    [merge_parallel] returns is the array that [merge_sequential] returns on
    the same input, whatever the order in which the runtime runs the
    iterations of the two copy loops; with its two buffers allocated,
    [merge_parallel] does return, and the two outcomes are equal. *)
Theorem merge_parallel_is_merge_sequential (rt : omp_runtime) (arr : list Z)
    (left mid right : Z) :
  0 ≤ left → left ≤ mid → mid < right → right < Z.of_nat (length arr) → right ≤ INT_MAX →
  (∀ arr', merge_parallel rt arr left mid right = Done arr' →
           merge_sequential arr left mid right = Done arr')
  ∧ (calloc_ok rt left right RunL = true → calloc_ok rt left right RunR = true →
     merge_parallel rt arr left mid right = merge_sequential arr left mid right
     ∧ ∃ arr', merge_sequential arr left mid right = Done arr').
Proof.
  intros Hl Hm Hr Hlen Hint. split.
  - intros arr'. by apply merge_parallel_done.
  - intros HokL HokR. rewrite merge_parallel_outcome, HokL, HokR by done.
    split; [done|].
    destruct (merge_sequential_done arr left mid right) as (arr1 & Hseq & _); [done..|].
    by exists arr1.
Qed.

Lemma merge_parallel_is_merge_sequential_witness :
  (∀ arr', merge_parallel rt_reversed [9; 4; 1; 3; 2; 9] 1 2 4 = Done arr' →
           merge_sequential [9; 4; 1; 3; 2; 9] 1 2 4 = Done arr')
  ∧ (calloc_ok rt_reversed 1 4 RunL = true → calloc_ok rt_reversed 1 4 RunR = true →
     merge_parallel rt_reversed [9; 4; 1; 3; 2; 9] 1 2 4
     = merge_sequential [9; 4; 1; 3; 2; 9] 1 2 4
     ∧ ∃ arr', merge_sequential [9; 4; 1; 3; 2; 9] 1 2 4 = Done arr').
Proof.
  apply (merge_parallel_is_merge_sequential rt_reversed [9; 4; 1; 3; 2; 9] 1 2 4);
    try lia; try (simpl; lia); unfold INT_MAX; lia.
Defined.

(** C8: either merge changes the array only inside [left..right]: the
    array that [merge_sequential] returns, and every array that
    [merge_parallel] returns, has the length of the input and holds at every
    index outside the range the value it held before. *)
Theorem merge_frame (rt : omp_runtime) (arr : list Z) (left mid right : Z) :
  0 ≤ left → left ≤ mid → mid < right → right < Z.of_nat (length arr) → right ≤ INT_MAX →
  (∃ arr', merge_sequential arr left mid right = Done arr'
           ∧ length arr' = length arr
           ∧ ∀ q : nat, (Z.of_nat q < left ∨ right < Z.of_nat q) → arr' !! q = arr !! q)
  ∧ (∀ arr', merge_parallel rt arr left mid right = Done arr' →
             length arr' = length arr
             ∧ ∀ q : nat, (Z.of_nat q < left ∨ right < Z.of_nat q) → arr' !! q = arr !! q)
  ∧ (calloc_ok rt left right RunL = true → calloc_ok rt left right RunR = true →
     ∃ arr', merge_parallel rt arr left mid right = Done arr').
Proof.
  intros Hl Hm Hr Hlen Hint.
  destruct (merge_sequential_done arr left mid right)
    as (arr1 & Hseq & Hlen1 & _ & Hframe); [done..|].
  split_and!.
  - by exists arr1.
  - intros arr' Hpar%merge_parallel_done; [|done..].
    rewrite Hseq in Hpar. by injection Hpar as <-.
  - intros HokL HokR. exists arr1.
    by rewrite merge_parallel_outcome, HokL, HokR.
Qed.

Lemma merge_frame_witness :
  (∃ arr', merge_sequential [7; 4; 1; 3; 2; 8] 1 2 4 = Done arr'
           ∧ length arr' = length [7; 4; 1; 3; 2; 8]
           ∧ ∀ q : nat, (Z.of_nat q < 1 ∨ 4 < Z.of_nat q) →
                        arr' !! q = [7; 4; 1; 3; 2; 8] !! q)
  ∧ (∀ arr', merge_parallel rt_in_order [7; 4; 1; 3; 2; 8] 1 2 4 = Done arr' →
             length arr' = length [7; 4; 1; 3; 2; 8]
             ∧ ∀ q : nat, (Z.of_nat q < 1 ∨ 4 < Z.of_nat q) →
                          arr' !! q = [7; 4; 1; 3; 2; 8] !! q)
  ∧ (calloc_ok rt_in_order 1 4 RunL = true → calloc_ok rt_in_order 1 4 RunR = true →
     ∃ arr', merge_parallel rt_in_order [7; 4; 1; 3; 2; 8] 1 2 4 = Done arr').
Proof.
  apply (merge_frame rt_in_order [7; 4; 1; 3; 2; 8] 1 2 4);
    try lia; try (simpl; lia); unfold INT_MAX; lia.
Defined.

(** ** The tie rule *)

(** A loop that returns has visited the state it returns. *)
Lemma while_loop_visits {S : Type} (cond : S → bool) (body : S → outcome S) (s0 : S) :
  ∀ fuel s s', while_visits cond body s0 s →
    while_loop fuel cond body s = Done s' →
    while_visits cond body s0 s' ∧ cond s' = false.
Proof.
  induction fuel as [|fuel IH]; intros s s' Hs; cbn [while_loop];
    destruct (cond s) eqn:Hc; try done; try (by intros [= <-]).
  destruct (body s) as [s1| |] eqn:Hb; [|done..]. cbn [mbind outcome_bind].
  apply IH. by eapply visits_next.
Qed.

Section first_loop.
Variables A X Y B : list Z.
Hypothesis HX : (0 < length X)%nat.
Hypothesis HY : (0 < length Y)%nat.
Hypothesis Hmax : Z.of_nat (length A + length X + length Y) ≤ INT_MAX + 1.

Local Abbreviation L := (Some (Some <$> X)).
Local Abbreviation R := (Some (Some <$> Y)).
Local Abbreviation cond :=
  (λ s, (ms_i s <? Z.of_nat (length X)) && (ms_j s <? Z.of_nat (length Y))).
Local Abbreviation s0 :=
  {| ms_i := 0; ms_j := 0; ms_k := Z.of_nat (length A); ms_arr := A ++ X ++ Y ++ B |}.

(** Every state of the first loop is a state of the merge. *)
Lemma visits_merge_at (s : merge_state) :
  while_visits cond (take_smaller L R) s0 s → ∃ a b, merge_at A X Y B a b s.
Proof.
  induction 1 as [|s s' _ IH Hc Hb].
  - exists 0%nat, 0%nat. by apply merge_at_start.
  - destruct (take_smaller_step A X Y B HX HY Hmax s IH Hc) as (s1 & Hs1 & Hat & _).
    by assert (s1 = s') as <- by congruence.
Qed.

(** The first loop comes to an end, in a state it has visited; the other
    two loops go on from that state. *)
Lemma first_loop_returns :
  ∃ s1, while_loop (length X + length Y) cond (take_smaller L R) s0 = Done s1
        ∧ while_visits cond (take_smaller L R) s0 s1 ∧ cond s1 = false
        ∧ interleave (A ++ X ++ Y ++ B) (Z.of_nat (length A))
            (Z.of_nat (length X)) (Z.of_nat (length Y)) L R
          = (s2 ← while_loop (length X) (λ s, ms_i s <? Z.of_nat (length X)) (take_left L) s1;
             s3 ← while_loop (length Y) (λ s, ms_j s <? Z.of_nat (length Y)) (take_right R) s2;
             Done (ms_arr s3)).
Proof.
  destruct (while_loop_rule (λ s, ∃ a b, merge_at A X Y B a b s) (remaining X Y)
              cond (take_smaller L R) (take_smaller_step A X Y B HX HY Hmax)
              (length X + length Y) s0) as (s1 & Hrun & _ & _).
  { exists 0%nat, 0%nat. by apply merge_at_start. }
  { unfold remaining. cbn [ms_i ms_j]. lia. }
  exists s1. split; [done|].
  destruct (while_loop_visits cond (take_smaller L R) s0 (length X + length Y)%nat s0 s1)
    as [Hv Hc]; [constructor|done|].
  split_and!; [done..|].
  unfold interleave. rewrite !Nat2Z.id. by rewrite Hrun.
Qed.

(** One comparison of the first loop. *)
Lemma visits_compare (s : merge_state) :
  while_visits cond (take_smaller L R) s0 s → cond s = true →
  ∃ x y,
    ptr_load L (ms_i s) = Done x ∧ ptr_load R (ms_j s) = Done y
    ∧ X !! Z.to_nat (ms_i s) = Some x ∧ Y !! Z.to_nat (ms_j s) = Some y
    ∧ Z.of_nat (length A) ≤ ms_k s < Z.of_nat (length A + length X + length Y)
    ∧ (Z.to_nat (ms_k s) < length (ms_arr s))%nat
    ∧ take_smaller L R s
      = Done (if decide (x ≤ y)
              then {| ms_i := ms_i s + 1; ms_j := ms_j s; ms_k := ms_k s + 1;
                      ms_arr := <[Z.to_nat (ms_k s) := x]> (ms_arr s) |}
              else {| ms_i := ms_i s; ms_j := ms_j s + 1; ms_k := ms_k s + 1;
                      ms_arr := <[Z.to_nat (ms_k s) := y]> (ms_arr s) |}).
Proof.
  intros Hs Hc. destruct (visits_merge_at s Hs) as (a & b & Hat).
  destruct Hat as (W & T & Hi & Hj & Ha & Hb & Hk & Harr & HW & HT & _).
  apply andb_true_iff in Hc as [Hc1%Z.ltb_lt Hc2%Z.ltb_lt].
  rewrite Hi in Hc1. rewrite Hj in Hc2.
  destruct (lookup_lt_is_Some_2 X a) as [x Hx]; [lia|].
  destruct (lookup_lt_is_Some_2 Y b) as [y Hy]; [lia|].
  rewrite wrap_int_id in Hk by (unfold INT_MIN, INT_MAX in *; lia).
  assert (Z.to_nat (ms_k s) < length (ms_arr s))%nat as Hlen.
  { rewrite Harr, Hk, !length_app. lia. }
  exists x, y. rewrite Hi, Hj, !Nat2Z.id.
  split_and!; try done; try lia; try by apply load_run.
  unfold take_smaller. rewrite Hi, Hj, (load_run X a x Hx), (load_run Y b y Hy).
  cbn [mbind outcome_bind].
  assert (∀ v, arr_store (ms_arr s) (ms_k s) v
               = Done (<[Z.to_nat (ms_k s) := v]> (ms_arr s))) as Hstore.
  { intros v. rewrite <-(arr_store_insert _ _ _ Hlen). f_equal. lia. }
  rewrite !Hstore. rewrite !int_add_id by (unfold INT_MIN, INT_MAX in *; lia).
  rewrite <-Hi, <-Hj.
  destruct (Z.leb_spec x y); [by rewrite decide_True|by rewrite decide_False by lia].
Qed.
End first_loop.

(** C7: in every call of [merge_sequential] and of [merge_parallel] (on a
    range inside the array, the buffers allocated) the interleave phase is
    run on the copies [L] and [R] of the two runs and leaves in
    [left..right] the merge that takes the left head whenever it is not
    greater than the right one.  Its first loop ends in a state it has
    visited, from which the other two loops go on, and at every comparison
    of that loop, with [x = L[i]] and [y = R[j]]: when [x <= y], so also
    when the two are equal, [x] is written to [arr[k]], a cell of the range,
    [i] and [k] advance and [j] stays. *)
Theorem tie_takes_left (rt : omp_runtime) (arr : list Z) (left mid right : Z) :
  0 ≤ left → left ≤ mid → mid < right → right < Z.of_nat (length arr) → right ≤ INT_MAX →
  let n1 := int_add (int_sub mid left) 1 in
  let n2 := int_sub right mid in
  let L := Some (Some <$> slice arr left mid) in
  let R := Some (Some <$> slice arr (mid + 1) right) in
  let cond := λ s, (ms_i s <? n1) && (ms_j s <? n2) in
  let s0 := {| ms_i := 0; ms_j := 0; ms_k := left; ms_arr := arr |} in
  merge_sequential arr left mid right = interleave arr left n1 n2 L R
  ∧ (calloc_ok rt left right RunL = true → calloc_ok rt left right RunR = true →
     merge_parallel rt arr left mid right = interleave arr left n1 n2 L R)
  ∧ (∃ arr', interleave arr left n1 n2 L R = Done arr'
       ∧ slice arr' left right
         = list_merge Z.le (slice arr left mid) (slice arr (mid + 1) right))
  ∧ (∃ s1, while_loop (Z.to_nat n1 + Z.to_nat n2) cond (take_smaller L R) s0 = Done s1
       ∧ while_visits cond (take_smaller L R) s0 s1 ∧ cond s1 = false
       ∧ interleave arr left n1 n2 L R
         = (s2 ← while_loop (Z.to_nat n1) (λ s, ms_i s <? n1) (take_left L) s1;
            s3 ← while_loop (Z.to_nat n2) (λ s, ms_j s <? n2) (take_right R) s2;
            Done (ms_arr s3)))
  ∧ ∀ s, while_visits cond (take_smaller L R) s0 s → cond s = true →
      ∃ x y,
        ptr_load L (ms_i s) = Done x ∧ ptr_load R (ms_j s) = Done y
        ∧ left ≤ ms_k s ≤ right
        ∧ (Z.to_nat (ms_k s) < length (ms_arr s))%nat
        ∧ (x ≤ y →
           take_smaller L R s
           = Done {| ms_i := ms_i s + 1; ms_j := ms_j s; ms_k := ms_k s + 1;
                     ms_arr := <[Z.to_nat (ms_k s) := x]> (ms_arr s) |}).
Proof.
  intros Hl Hm Hr Hlen Hint n1 n2 L R cond s0.
  destruct (valid_triple_runs arr left mid right)
    as (A & B & Harr & HA & Hmid & Hright & HX & HY); [done..|].
  set (X := slice arr left mid) in *. set (Y := slice arr (mid + 1) right) in *.
  assert (n1 = Z.of_nat (length X)) as Hn1 by by apply (merge_n1 A X Y left mid right).
  assert (n2 = Z.of_nat (length Y)) as Hn2 by by apply (merge_n2 A X Y left mid right).
  assert (Z.of_nat (length A + length X + length Y) ≤ INT_MAX + 1) as Hmax by lia.
  assert (interleave arr left n1 n2 L R = Done (A ++ list_merge Z.le X Y ++ B)) as Hrun.
  { rewrite Hn1, Hn2. subst L R. rewrite HA. rewrite Harr at 1.
    by apply interleave_runs. }
  assert (s0 = {| ms_i := 0; ms_j := 0; ms_k := Z.of_nat (length A);
                  ms_arr := A ++ X ++ Y ++ B |}) as Hs0
    by (subst s0; by rewrite <-HA, <-Harr).
  subst L R cond. rewrite Hn1, Hn2, Hs0, !Nat2Z.id. split_and!.
  - rewrite <-Hn1, <-Hn2, Hrun. by apply merge_sequential_runs.
  - intros HokL HokR. rewrite <-Hn1, <-Hn2, Hrun. by apply merge_parallel_runs.
  - rewrite <-Hn1, <-Hn2, Hrun. eexists. split; [done|]. apply slice_runs; [done|].
    pose proof (Permutation_length (merge_Permutation Z.le X Y)) as Hml.
    rewrite length_app in Hml. lia.
  - destruct (first_loop_returns A X Y B HX HY Hmax) as (s1 & Hloop & Hv & Hc & Hrest).
    exists s1. split_and!; [done..|]. rewrite <-Hrest. by rewrite <-HA, <-Harr.
  - intros s Hs Hc.
    destruct (visits_compare A X Y B HX HY Hmax s Hs Hc)
      as (x & y & HLx & HRy & _ & _ & Hk & Hlenk & Hstep).
    exists x, y. split_and!; try done; try lia.
    intros Hle. by rewrite Hstep, decide_True.
Qed.

Lemma tie_takes_left_witness :
  let arr := [0; 7; 7; 9] in
  let L := Some [Some 7] in
  let R := Some [Some 7] in
  let cond := λ s, (ms_i s <? 1) && (ms_j s <? 1) in
  let s0 := {| ms_i := 0; ms_j := 0; ms_k := 1; ms_arr := arr |} in
  merge_sequential arr 1 1 2 = interleave arr 1 1 1 L R
  ∧ (calloc_ok rt_reversed 1 2 RunL = true → calloc_ok rt_reversed 1 2 RunR = true →
     merge_parallel rt_reversed arr 1 1 2 = interleave arr 1 1 1 L R)
  ∧ (∃ arr', interleave arr 1 1 1 L R = Done arr'
       ∧ slice arr' 1 2 = list_merge Z.le (slice arr 1 1) (slice arr (1 + 1) 2))
  ∧ (∃ s1, while_loop (Z.to_nat 1 + Z.to_nat 1) cond (take_smaller L R) s0 = Done s1
       ∧ while_visits cond (take_smaller L R) s0 s1 ∧ cond s1 = false
       ∧ interleave arr 1 1 1 L R
         = (s2 ← while_loop (Z.to_nat 1) (λ s, ms_i s <? 1) (take_left L) s1;
            s3 ← while_loop (Z.to_nat 1) (λ s, ms_j s <? 1) (take_right R) s2;
            Done (ms_arr s3)))
  ∧ ∀ s, while_visits cond (take_smaller L R) s0 s → cond s = true →
      ∃ x y,
        ptr_load L (ms_i s) = Done x ∧ ptr_load R (ms_j s) = Done y
        ∧ 1 ≤ ms_k s ≤ 2
        ∧ (Z.to_nat (ms_k s) < length (ms_arr s))%nat
        ∧ (x ≤ y →
           take_smaller L R s
           = Done {| ms_i := ms_i s + 1; ms_j := ms_j s; ms_k := ms_k s + 1;
                     ms_arr := <[Z.to_nat (ms_k s) := x]> (ms_arr s) |}).
Proof.
  apply (tie_takes_left rt_reversed [0; 7; 7; 9] 1 1 2);
    try lia; try (simpl; lia); unfold INT_MAX; lia.
Defined.

(** ** The check *)

Lemma Sorted_snoc_iff (l : list Z) (y x : Z) :
  Sorted Z.le ((l ++ [y]) ++ [x]) ↔ Sorted Z.le (l ++ [y]) ∧ y ≤ x.
Proof.
  induction l as [|a l IH]; simpl.
  - split.
    + intros Hs. apply Sorted_inv in Hs as [_ Hhd]. apply HdRel_inv in Hhd.
      split; [by repeat constructor|done].
    + intros [_ Hle]. by repeat constructor.
  - split.
    + intros Hs. apply Sorted_inv in Hs as [Hs Hhd]. apply IH in Hs as [Hs Hle].
      split; [|done]. constructor; [done|].
      destruct l; simpl in *; apply HdRel_inv in Hhd; by constructor.
    + intros [Hs Hle]. apply Sorted_inv in Hs as [Hs Hhd].
      constructor; [by apply IH|].
      destruct l; simpl in *; apply HdRel_inv in Hhd; by constructor.
Qed.

Lemma is_array_sorted_with_take (arr : list Z) :
  ∀ (m fuel : nat),
    (m ≤ length arr)%nat → (m ≤ S fuel)%nat → Z.of_nat m ≤ INT_MAX →
    is_array_sorted_with (arr_load arr) fuel (Z.of_nat m)
    = Done (if decide (Sorted Z.le (take m arr)) then 1 else 0).
Proof.
  induction m as [|m IH]; intros fuel Hlen Hfuel Hint.
  { rewrite decide_True by constructor. by destruct fuel. }
  destruct m as [|p].
  { rewrite decide_True by (destruct arr; simpl; by repeat constructor).
    by destruct fuel. }
  destruct fuel as [|fuel]; [lia|].
  destruct (lookup_lt_is_Some_2 arr p) as [y Hy]; [lia|].
  destruct (lookup_lt_is_Some_2 arr (S p)) as [x Hx]; [lia|].
  cbn [is_array_sorted_with].
  destruct (Z.eqb_spec (Z.of_nat (S (S p))) 1) as [|_]; [lia|].
  destruct (Z.eqb_spec (Z.of_nat (S (S p))) 0) as [|_]; [lia|]. cbn [orb].
  replace (int_sub (Z.of_nat (S (S p))) 1) with (Z.of_nat (S p))
    by (rewrite int_sub_id; unfold INT_MIN, INT_MAX in *; lia).
  replace (int_sub (Z.of_nat (S (S p))) 2) with (Z.of_nat p)
    by (rewrite int_sub_id; unfold INT_MIN, INT_MAX in *; lia).
  rewrite (arr_load_lookup arr (S p) x Hx), (arr_load_lookup arr p y Hy).
  cbn [mbind outcome_bind].
  rewrite (take_S_r arr (S p) x Hx), (take_S_r arr p y Hy).
  destruct (Z.ltb_spec x y) as [Hlt|Hge].
  - rewrite decide_False; [done|]. rewrite Sorted_snoc_iff. lia.
  - rewrite IH by lia. rewrite (take_S_r arr p y Hy).
    destruct (decide (Sorted Z.le (take p arr ++ [y]))) as [Hs|Hs].
    + by rewrite decide_True by (by apply Sorted_snoc_iff).
    + rewrite decide_False; [done|]. rewrite Sorted_snoc_iff. tauto.
Qed.

Lemma is_array_sorted_take (arr : list Z) (n : Z) :
  0 ≤ n → n ≤ Z.of_nat (length arr) → n ≤ INT_MAX →
  is_array_sorted arr n
  = Done (if decide (Sorted Z.le (take (Z.to_nat n) arr)) then 1 else 0).
Proof.
  intros Hn Hlen Hint. unfold is_array_sorted.
  rewrite <-(Z2Nat.id n) at 2 by done.
  apply is_array_sorted_with_take; lia.
Qed.

(** C10: for [0 <= n] within the array, [is_array_sorted(arr, n)] returns,
    its result is 1 or 0, and it is 1 exactly when [arr[0..n-1]] is in
    non-decreasing order (equal neighbours count as sorted); for [n = 0] and
    [n = 1] it returns 1 whatever reading an element would do, that is,
    without reading any. *)
Theorem is_array_sorted_correct (arr : list Z) (n : Z) :
  0 ≤ n →
  (n ≤ Z.of_nat (length arr) → n ≤ INT_MAX →
   ∃ r, is_array_sorted arr n = Done r
        ∧ (r = 1 ∨ r = 0)
        ∧ (r = 1 ↔ Sorted Z.le (slice arr 0 (n - 1))))
  ∧ (n ≤ 1 → ∀ (load : Z → outcome Z) (fuel : nat),
       is_array_sorted_with load fuel n = Done 1).
Proof.
  intros Hn. split.
  - intros Hlen Hint. rewrite is_array_sorted_take, slice_from_0 by done.
    eexists. split; [done|]. case_decide.
    + split; [by left|]. by split.
    + split; [by right|]. split; [done|]. intros ?; contradiction.
  - intros Hn1 load fuel.
    assert (n = 0 ∨ n = 1) as [->| ->] by lia; by destruct fuel.
Qed.

Lemma is_array_sorted_correct_witness :
  (∃ r, is_array_sorted [1; 2; 2; 5] 4 = Done r
        ∧ (r = 1 ∨ r = 0)
        ∧ (r = 1 ↔ Sorted Z.le (slice [1; 2; 2; 5] 0 (4 - 1))))
  ∧ (∀ (load : Z → outcome Z) (fuel : nat), is_array_sorted_with load fuel 1 = Done 1).
Proof.
  split.
  - apply (is_array_sorted_correct [1; 2; 2; 5] 4); [lia|simpl; lia|unfold INT_MAX; lia].
  - apply (is_array_sorted_correct [] 1); lia.
Defined.

(** ** The driver on a run *)

Lemma Sorted_short (X : list Z) : (length X ≤ 1)%nat → Sorted Z.le X.
Proof.
  destruct X as [|x [|y X]]; simpl; intros; [by constructor|by repeat constructor|lia].
Qed.

(** Sorting the run [X] of [A ++ X ++ B] leaves a sorted rearrangement of
    [X] in its place, whatever the runtime decides; the only other outcome
    is the store through NULL of a [merge_parallel] whose [calloc] failed. *)
Lemma merge_sort_recursive_fuel_runs (rt : omp_runtime) (fuel : nat) :
  ∀ (arr A X B : list Z) (left right : Z),
    arr = A ++ X ++ B →
    left = Z.of_nat (length A) →
    right = left + Z.of_nat (length X) - 1 →
    (length X ≤ S fuel)%nat →
    right ≤ INT_MAX →
    (∃ X', merge_sort_recursive_fuel fuel rt arr left right = Done (A ++ X' ++ B)
           ∧ Sorted Z.le X' ∧ X' ≡ₚ X)
    ∨ (merge_sort_recursive_fuel fuel rt arr left right = Undefined NullPointer
       ∧ (2000 < length X)%nat ∧ ¬ allocations_succeed rt).
Proof.
  induction fuel as [|fuel IH]; intros arr A X B left right Harr Hleft Hright Hfuel Hint.
  - left. exists X. simpl. destruct (Z.ltb_spec left right); [lia|].
    split_and!; [by rewrite Harr|by apply Sorted_short|done].
  - cbn [merge_sort_recursive_fuel]. destruct (Z.ltb_spec left right) as [Hlt|Hge].
    2:{ left. exists X. split_and!; [by rewrite Harr|apply Sorted_short; lia|done]. }
    set (h := (Z.of_nat (length X) - 1) `div` 2).
    assert (0 ≤ h ∧ 2 * h ≤ Z.of_nat (length X) - 1 < 2 * h + 2) as Hh.
    { subst h. pose proof (Z.div_mod (Z.of_nat (length X) - 1) 2).
      pose proof (Z.mod_pos_bound (Z.of_nat (length X) - 1) 2). lia. }
    assert (int_sub right left = Z.of_nat (length X) - 1) as ->.
    { rewrite int_sub_id by (unfold INT_MIN, INT_MAX in *; lia). lia. }
    rewrite int_div_2 by (unfold INT_MAX in *; lia). fold h.
    rewrite (int_add_id left h) by (unfold INT_MIN, INT_MAX in *; lia).
    set (mid := left + h).
    set (X1 := take (Z.to_nat (h + 1)) X). set (X2 := drop (Z.to_nat (h + 1)) X).
    assert (length X1 = Z.to_nat (h + 1)) as HX1 by (subst X1; rewrite length_take; lia).
    assert (length X2 = (length X - Z.to_nat (h + 1))%nat) as HX2
      by (subst X2; by rewrite length_drop).
    assert (X = X1 ++ X2) as HX by (subst X1 X2; by rewrite take_drop).
    assert (int_add mid 1 = mid + 1) as Hmid1
      by (apply int_add_id; unfold INT_MIN, INT_MAX in *; lia).
    (* the two recursive sorts, in the order [first]: each hands over a
       sorted rearrangement of its half, or they fault *)
    assert (∀ first : bool,
      (∃ X1' X2',
         omp_tasks_taskwait first
           (λ a, merge_sort_recursive_fuel fuel rt a left mid)
           (λ a, merge_sort_recursive_fuel fuel rt a (int_add mid 1) right) arr
         = Done (A ++ X1' ++ X2' ++ B)
         ∧ Sorted Z.le X1' ∧ X1' ≡ₚ X1 ∧ Sorted Z.le X2' ∧ X2' ≡ₚ X2)
      ∨ (omp_tasks_taskwait first
           (λ a, merge_sort_recursive_fuel fuel rt a left mid)
           (λ a, merge_sort_recursive_fuel fuel rt a (int_add mid 1) right) arr
         = Undefined NullPointer
         ∧ (2000 < length X)%nat ∧ ¬ allocations_succeed rt)) as Hhalves.
    { intros first. unfold omp_tasks_taskwait. destruct first.
      - destruct (IH arr A X1 (X2 ++ B) left mid)
          as [(X1' & -> & Hs1 & Hp1)|(-> & Hbig & Hno)];
          [by rewrite Harr, HX, <-(assoc_L (++))|done|lia|lia|lia| |right; split_and!; [done|lia|done]].
        pose proof (Permutation_length Hp1) as Hl1. cbn [mbind outcome_bind].
        destruct (IH (A ++ X1' ++ X2 ++ B) (A ++ X1') X2 B (int_add mid 1) right)
          as [(X2' & -> & Hs2 & Hp2)|(-> & Hbig & Hno)];
          [by rewrite <-(assoc_L (++))|rewrite length_app; lia|lia|lia|lia
          | |right; split_and!; [done|lia|done]].
        left. exists X1', X2'. by rewrite <-(assoc_L (++)).
      - destruct (IH arr (A ++ X1) X2 B (int_add mid 1) right)
          as [(X2' & -> & Hs2 & Hp2)|(-> & Hbig & Hno)];
          [by rewrite Harr, HX, <-!(assoc_L (++))|rewrite length_app; lia|lia|lia|lia
          | |right; split_and!; [done|lia|done]].
        cbn [mbind outcome_bind].
        destruct (IH ((A ++ X1) ++ X2' ++ B) A X1 (X2' ++ B) left mid)
          as [(X1' & -> & Hs1 & Hp1)|(-> & Hbig & Hno)];
          [by rewrite <-(assoc_L (++))|done|lia|lia|lia
          | |right; split_and!; [done|lia|done]].
        left. by exists X1', X2'. }
    destruct (Z.ltb_spec (Z.of_nat (length X) - 1) 2000) as [Hsmall|Hlarge].
    + destruct (Hhalves true) as [(X1' & X2' & Hrun & Hs1 & Hp1 & Hs2 & Hp2)|(_ & Hbig & _)];
        [|lia].
      pose proof (Permutation_length Hp1). pose proof (Permutation_length Hp2).
      left. exists (list_merge Z.le X1' X2').
      split_and!; [|by apply (Sorted_list_merge Z.le)
                   |by rewrite merge_Permutation, Hp1, Hp2, HX].
      unfold omp_tasks_taskwait in Hrun.
      destruct (merge_sort_recursive_fuel fuel rt arr left mid) as [a1| |]; [|done..].
      cbn [mbind outcome_bind] in *. rewrite Hrun. cbn [mbind outcome_bind].
      apply merge_sequential_runs; [done|done|lia..].
    + destruct (Hhalves (task_first rt left right))
        as [(X1' & X2' & -> & Hs1 & Hp1 & Hs2 & Hp2)|(-> & Hbig & Hno)];
        [|by right].
      pose proof (Permutation_length Hp1). pose proof (Permutation_length Hp2).
      cbn [mbind outcome_bind].
      rewrite merge_parallel_outcome by (rewrite ?length_app; lia).
      destruct (calloc_ok rt left right RunL && calloc_ok rt left right RunR) eqn:Hok.
      * left. exists (list_merge Z.le X1' X2').
        split_and!; [|by apply (Sorted_list_merge Z.le)
                     |by rewrite merge_Permutation, Hp1, Hp2, HX].
        apply merge_sequential_runs; [done|done|lia..].
      * right. split_and!; [done|lia|]. intros Hall.
        rewrite !Hall in Hok. done.
Qed.

(** ** The driver on a range of the array *)

Lemma merge_sort_recursive_fuel_base fuel rt (arr : list Z) (left right : Z) :
  right ≤ left → merge_sort_recursive_fuel fuel rt arr left right = Done arr.
Proof.
  intros Hge. destruct fuel; simpl; by destruct (Z.ltb_spec left right); [lia|].
Qed.

Lemma merge_sort_recursive_range (rt : omp_runtime) (arr : list Z) (left right : Z) :
  (left < right → 0 ≤ left ∧ right < Z.of_nat (length arr) ∧ right ≤ INT_MAX) →
  (∃ arr', merge_sort_recursive rt arr left right = Done arr'
     ∧ length arr' = length arr
     ∧ (left < right → Sorted Z.le (slice arr' left right))
     ∧ slice arr' left right ≡ₚ slice arr left right
     ∧ (∀ q : nat, (Z.of_nat q < left ∨ right < Z.of_nat q) → arr' !! q = arr !! q)
     ∧ (left < right →
        arr' = take (Z.to_nat left) arr ++ slice arr' left right
                 ++ drop (Z.to_nat (right + 1)) arr))
  ∨ (merge_sort_recursive rt arr left right = Undefined NullPointer
     ∧ 2000 ≤ right - left ∧ ¬ allocations_succeed rt).
Proof.
  intros Hvalid. unfold merge_sort_recursive.
  destruct (Z.lt_ge_cases left right) as [Hlt|Hge].
  2:{ left. exists arr. rewrite merge_sort_recursive_fuel_base by done.
      split_and!; try done; lia. }
  destruct (Hvalid Hlt) as (Hl & Hlen & Hint).
  destruct (range_split arr left right) as [Harr HA]; [lia..|].
  pose proof (slice_length arr left right) as HlenX.
  set (A := take (Z.to_nat left) arr) in *. set (X := slice arr left right) in *.
  set (B := drop (Z.to_nat (right + 1)) arr) in *.
  destruct (merge_sort_recursive_fuel_runs rt (Z.to_nat (right - left)) arr A X B left right)
    as [(X' & -> & Hs & Hp)|(-> & Hbig & Hno)]; [done|done|lia|lia|done| |].
  - pose proof (Permutation_length Hp) as HlenX'.
    assert (slice (A ++ X' ++ B) left right = X') as Hslice
      by (apply slice_runs; [done|lia]).
    left. eexists. split; [done|]. split_and!.
    + trans (length (A ++ X ++ B)); [|by rewrite <-Harr]. by rewrite !length_app, HlenX'.
    + intros _. by rewrite Hslice.
    + by rewrite Hslice.
    + intros q Hq. trans ((A ++ X ++ B) !! q); [|by rewrite <-Harr].
      apply frame_lookup; [done|lia].
    + intros _. by rewrite Hslice.
  - right. split_and!; [done|lia|done].
Qed.

(** With its buffers allocated the sort returns. *)
Lemma merge_sort_recursive_range_done (rt : omp_runtime) (arr : list Z) (left right : Z) :
  (left < right → 0 ≤ left ∧ right < Z.of_nat (length arr) ∧ right ≤ INT_MAX) →
  (2000 ≤ right - left → allocations_succeed rt) →
  ∃ arr', merge_sort_recursive rt arr left right = Done arr'
    ∧ length arr' = length arr
    ∧ (left < right → Sorted Z.le (slice arr' left right))
    ∧ slice arr' left right ≡ₚ slice arr left right.
Proof.
  intros Hvalid Halloc.
  destruct (merge_sort_recursive_range rt arr left right Hvalid)
    as [(arr' & Hrun & Hlen & Hs & Hp & _)|(_ & Hbig & Hno)].
  - by exists arr'.
  - destruct Hno. by apply Halloc.
Qed.

(** The array that the sort returns does not depend on the order in which
    the runtime runs the tasks and the iterations of the copy loops. *)
Lemma merge_sort_recursive_any_runtime (rt1 rt2 : omp_runtime) (arr arr1 arr2 : list Z)
    (left right : Z) :
  (left < right → 0 ≤ left ∧ right < Z.of_nat (length arr) ∧ right ≤ INT_MAX) →
  merge_sort_recursive rt1 arr left right = Done arr1 →
  merge_sort_recursive rt2 arr left right = Done arr2 →
  arr1 = arr2.
Proof.
  intros Hvalid Hrun1 Hrun2.
  destruct (Z.lt_ge_cases left right) as [Hlt|Hge].
  2:{ unfold merge_sort_recursive in *.
      rewrite merge_sort_recursive_fuel_base in Hrun1, Hrun2 by done. congruence. }
  destruct (merge_sort_recursive_range rt1 arr left right Hvalid)
    as [(a1 & Ha1 & _ & Hs1 & Hp1 & _ & Hcut1)|(Ha1 & _)]; [|congruence].
  destruct (merge_sort_recursive_range rt2 arr left right Hvalid)
    as [(a2 & Ha2 & _ & Hs2 & Hp2 & _ & Hcut2)|(Ha2 & _)]; [|congruence].
  assert (a1 = arr1) as -> by congruence. assert (a2 = arr2) as -> by congruence.
  rewrite (Hcut1 Hlt), (Hcut2 Hlt). do 2 f_equal.
  apply (Sorted_unique Z.le); [by apply Hs1|by apply Hs2|by rewrite Hp1, Hp2].
Qed.

(** C1: for [0 <= N] (an [int]) and an array of length [N], the array that
    [merge_sort_recursive(arr, 0, N-1)] returns is in non-decreasing order
    and [is_array_sorted(arr, N)] yields 1 on it.  The call returns when the
    buffers of [merge_parallel], needed beyond 2000 elements, are
    allocated. *)
Theorem merge_sort_recursive_sorts (rt : omp_runtime) (arr : list Z) (N : Z) :
  0 ≤ N → N ≤ INT_MAX →
  Z.of_nat (length arr) = N →
  (∀ arr', merge_sort_recursive rt arr 0 (N - 1) = Done arr' →
           Sorted Z.le (slice arr' 0 (N - 1)) ∧ is_array_sorted arr' N = Done 1)
  ∧ ((2000 < N → allocations_succeed rt) →
     ∃ arr', merge_sort_recursive rt arr 0 (N - 1) = Done arr').
Proof.
  intros HN Hint Hlen. split.
  - intros arr' Hrun.
    destruct (merge_sort_recursive_range rt arr 0 (N - 1))
      as [(arr1 & Hrun1 & Hlen1 & Hs & _)|(Hrun1 & _)]; [lia| |congruence].
    rewrite Hrun in Hrun1. injection Hrun1 as <-.
    assert (Sorted Z.le (slice arr' 0 (N - 1))) as Hsorted.
    { destruct (Z.lt_ge_cases 0 (N - 1)); [by apply Hs|].
      apply Sorted_short. rewrite slice_from_0, length_take. lia. }
    split; [done|]. rewrite is_array_sorted_take by lia.
    by rewrite <-slice_from_0, decide_True.
  - intros Halloc.
    destruct (merge_sort_recursive_range_done rt arr 0 (N - 1))
      as (arr' & Hrun & _); [lia|intros; apply Halloc; lia|].
    by exists arr'.
Qed.

Lemma merge_sort_recursive_sorts_witness :
  (∀ arr', merge_sort_recursive rt_reversed [5; 4; 3; 2; 1] 0 (5 - 1) = Done arr' →
           Sorted Z.le (slice arr' 0 (5 - 1)) ∧ is_array_sorted arr' 5 = Done 1)
  ∧ ((2000 < 5 → allocations_succeed rt_reversed) →
     ∃ arr', merge_sort_recursive rt_reversed [5; 4; 3; 2; 1] 0 (5 - 1) = Done arr').
Proof.
  apply (merge_sort_recursive_sorts rt_reversed [5; 4; 3; 2; 1] 5);
    [lia|unfold INT_MAX; lia|reflexivity].
Defined.

(** C2: the values in [arr[left..right]] of an array that
    [merge_sort_recursive(arr, left, right)] returns are those held before,
    each as many times (a permutation); a range of two or more elements lies
    inside the array, an empty or one-element range is left alone wherever
    it lies.  The call returns when the buffers of [merge_parallel], needed
    for a range of more than 2000 elements, are allocated. *)
Theorem merge_sort_recursive_permutes (rt : omp_runtime) (arr : list Z) (left right : Z) :
  (left < right → 0 ≤ left ∧ right < Z.of_nat (length arr) ∧ right ≤ INT_MAX) →
  (∀ arr', merge_sort_recursive rt arr left right = Done arr' →
           slice arr' left right ≡ₚ slice arr left right)
  ∧ ((2000 ≤ right - left → allocations_succeed rt) →
     ∃ arr', merge_sort_recursive rt arr left right = Done arr').
Proof.
  intros Hvalid. split.
  - intros arr' Hrun.
    destruct (merge_sort_recursive_range rt arr left right Hvalid)
      as [(arr1 & Hrun1 & _ & _ & Hp & _)|(Hrun1 & _)]; [|congruence].
    rewrite Hrun in Hrun1. by injection Hrun1 as <-.
  - intros Halloc.
    destruct (merge_sort_recursive_range_done rt arr left right Hvalid Halloc)
      as (arr' & Hrun & _).
    by exists arr'.
Qed.

Lemma merge_sort_recursive_permutes_witness :
  (∀ arr', merge_sort_recursive rt_in_order [8; 2; 1; 2; 1; 0] 1 4 = Done arr' →
           slice arr' 1 4 ≡ₚ slice [8; 2; 1; 2; 1; 0] 1 4)
  ∧ ((2000 ≤ 4 - 1 → allocations_succeed rt_in_order) →
     ∃ arr', merge_sort_recursive rt_in_order [8; 2; 1; 2; 1; 0] 1 4 = Done arr').
Proof.
  apply (merge_sort_recursive_permutes rt_in_order [8; 2; 1; 2; 1; 0] 1 4).
  intros _. simpl. unfold INT_MAX. lia.
Defined.

(** C5 (what the code does): with 2001 elements the last merge is
    [merge_parallel]; when its [calloc] fails the two halves are sorted, the
    merge stores through NULL, which is undefined behaviour, and the sort has
    no failure outcome to hand to [main]. *)
Theorem merge_sort_recursive_failed_calloc :
  merge_parallel rt_no_memory [2; 1] 0 0 1 = Undefined NullPointer
  ∧ merge_sort_recursive rt_no_memory (descending 2001) 0 2000 = Undefined NullPointer.
Proof. split; [reflexivity|]. vm_compute. reflexivity. Qed.

(** ** The shape of a call of the driver *)

Lemma omp_tasks_taskwait_ext {S : Type} (b : bool) (t1 t1' t2 t2' : S → outcome S) (s : S) :
  (∀ a, t1 a = t1' a) → (∀ a, t2 a = t2' a) →
  omp_tasks_taskwait b t1 t2 s = omp_tasks_taskwait b t1' t2' s.
Proof.
  intros H1 H2. unfold omp_tasks_taskwait. destruct b.
  - rewrite H1. by apply outcome_bind_ext.
  - rewrite H2. by apply outcome_bind_ext.
Qed.

(** Fuel beyond the size of the range changes nothing. *)
Lemma merge_sort_recursive_fuel_enough (rt : omp_runtime) :
  ∀ (fuel fuel' : nat) (arr : list Z) (left right : Z),
    INT_MIN ≤ left → right ≤ INT_MAX → right - left ≤ INT_MAX →
    right - left ≤ Z.of_nat fuel → right - left ≤ Z.of_nat fuel' →
    merge_sort_recursive_fuel fuel rt arr left right
    = merge_sort_recursive_fuel fuel' rt arr left right.
Proof.
  induction fuel as [|fuel IH]; intros fuel' arr left right Hl Hr Hsize Hf Hf'.
  { rewrite !merge_sort_recursive_fuel_base by lia. done. }
  destruct (Z.lt_ge_cases left right) as [Hlt|Hge].
  2:{ rewrite !merge_sort_recursive_fuel_base by lia. done. }
  destruct fuel' as [|fuel']; [lia|].
  cbn [merge_sort_recursive_fuel]. destruct (Z.ltb_spec left right); [|lia].
  rewrite int_sub_id by (unfold INT_MIN, INT_MAX in *; lia).
  rewrite int_div_2 by lia.
  set (h := (right - left) `div` 2).
  assert (0 ≤ h ∧ 2 * h ≤ right - left < 2 * h + 2) as Hh.
  { subst h. pose proof (Z.div_mod (right - left) 2).
    pose proof (Z.mod_pos_bound (right - left) 2). lia. }
  rewrite (int_add_id left h) by (unfold INT_MIN, INT_MAX in *; lia).
  rewrite (int_add_id (left + h) 1) by (unfold INT_MIN, INT_MAX in *; lia).
  assert (∀ a, merge_sort_recursive_fuel fuel rt a left (left + h)
               = merge_sort_recursive_fuel fuel' rt a left (left + h)) as H1
    by (intros a; apply IH; lia).
  assert (∀ a, merge_sort_recursive_fuel fuel rt a (left + h + 1) right
               = merge_sort_recursive_fuel fuel' rt a (left + h + 1) right) as H2
    by (intros a; apply IH; lia).
  destruct (right - left <? 2000).
  - rewrite H1. apply outcome_bind_ext. intros a. by rewrite H2.
  - f_equal. by apply omp_tasks_taskwait_ext.
Qed.






(** ** The harness *)

Lemma for_each_total {S : Type} (P : S → Prop) (body : Z → S → outcome S) (iters : list Z) :
  (∀ it s, it ∈ iters → P s → ∃ s', body it s = Done s' ∧ P s') →
  ∀ s, P s → ∃ s', for_each body iters s = Done s' ∧ P s'.
Proof.
  induction iters as [|it rest IH]; intros Hbody s Hs; simpl; [by eauto|].
  destruct (Hbody it s) as (s1 & -> & Hs1); [apply list_elem_of_here|done|].
  cbn [mbind outcome_bind]. apply IH; [|done].
  intros it' s' Hin. apply Hbody. by apply list_elem_of_further.
Qed.

(** When the bound fits an [int] the counter does not wrap. *)
Lemma for_int_below_for_loop {S : Type} (n : Z) (body : Z → S → outcome S) (s : S) :
  0 ≤ n → n ≤ INT_MAX → for_int_below n body s = for_loop n body s.
Proof.
  intros Hn Hint. unfold for_int_below, for_loop.
  assert (∀ (m : nat) (k : Z) (s : S) (fuel : nat),
    0 ≤ k → k + Z.of_nat m = n → (m ≤ fuel)%nat →
    (while_loop fuel (λ st : Z * S, st.1 <? n)
       (λ st, s' ← body st.1 st.2; Done (int_add st.1 1, s')) (k, s)
     ≫= λ st, Done st.2)
    = for_each body (seqZ k (Z.of_nat m)) s) as Hloop.
  { clear s. induction m as [|m IH]; intros k s fuel Hk Hkm Hfuel.
    - rewrite while_loop_exit by (apply Z.ltb_ge; simpl; lia). done.
    - destruct fuel as [|fuel]; [lia|]. cbn [while_loop fst snd].
      destruct (Z.ltb_spec k n); [|lia].
      rewrite seqZ_cons by lia. cbn [for_each].
      destruct (body k s) as [s'| |]; [|done..]. cbn [mbind outcome_bind].
      rewrite int_add_id by (unfold INT_MIN, INT_MAX in *; lia).
      rewrite IH by lia. do 2 f_equal; lia. }
  specialize (Hloop (Z.to_nat n) 0 s (Z.to_nat n)).
  rewrite Z2Nat.id in Hloop by done. apply Hloop; lia.
Qed.

Lemma print_array_done (arr : list Z) (n : Z) (out : list event) :
  0 ≤ n → n ≤ INT_MAX → n ≤ Z.of_nat (length arr) →
  ∃ out', print_array arr n out = Done out'.
Proof.
  intros Hn Hint Hlen. unfold print_array. rewrite for_int_below_for_loop by done.
  destruct (for_each_total (λ _, True)
              (λ i out, v ← arr_load arr i; Done (out ++ [StdoutInt v]))
              (seqZ 0 n)) with (s := out) as (out' & Hrun & _); [|done|by eauto].
  intros it o Hit%elem_of_seqZ _.
  destruct (lookup_lt_is_Some_2 arr (Z.to_nat it)) as [v Hv]; [lia|].
  rewrite <-(Z2Nat.id it) by lia. rewrite (arr_load_lookup _ _ v Hv). by eauto.
Qed.

Lemma fill_done (pick : nat → nat) (rand : Z → Z) (n : Z) (arr : list Z) :
  0 ≤ n → n ≤ INT_MAX → Z.of_nat (length arr) = n →
  ∃ arr', omp_for_int_below pick n (λ i a, arr_store a i (rand i)) arr = Done arr'
          ∧ Z.of_nat (length arr') = n.
Proof.
  intros Hn Hint Hlen. unfold omp_for_int_below, omp_for.
  destruct (Z.leb_spec n INT_MAX); [|lia].
  apply (for_each_total (λ a : list Z, Z.of_nat (length a) = n)); [|done].
  intros it a Hit Ha. apply list_elem_of_fmap in Hit as (q & -> & Hq).
  rewrite omp_schedule_Permutation in Hq. apply elem_of_seq in Hq.
  rewrite arr_store_insert by lia. eexists. split; [done|]. by rewrite length_insert.
Qed.

Lemma sort_and_check_done (env : environment) (n : Z) (arr : list Z) :
  0 ≤ n → n ≤ INT_MAX → Z.of_nat (length arr) = n →
  (2000 < n → allocations_succeed (env_omp env)) →
  ∃ out, sort_and_check env n arr = Done (out, 1).
Proof.
  intros Hn Hint Hlen Halloc. unfold sort_and_check.
  destruct (fill_done (env_fill_pick env) (env_rand env) n arr) as (arr1 & -> & Hlen1);
    [done..|].
  cbn [mbind outcome_bind].
  destruct (print_array_done arr1 n [Stdout "Before: "]) as (out1 & ->); [lia..|].
  cbn [mbind outcome_bind].
  rewrite !wrap_int_id by (unfold INT_MIN, INT_MAX in *; lia).
  destruct (merge_sort_recursive_range_done (env_omp env) arr1 0 (n - 1))
    as (arr2 & -> & Hlen2 & Hs & _); [lia|intros; apply Halloc; lia|].
  cbn [mbind outcome_bind].
  destruct (print_array_done arr2 n (out1 ++ [Stdout ""; Stdout "After: "]))
    as (out2 & ->); [lia..|].
  cbn [mbind outcome_bind].
  rewrite is_array_sorted_take, <-slice_from_0 by lia.
  rewrite decide_True; [by eauto|].
  destruct (Z.lt_ge_cases 0 (n - 1)); [by apply Hs|].
  apply Sorted_short. rewrite slice_from_0, length_take. lia.
Qed.

(** C9 (as the code has it): a wrong number of arguments, a number out of
    the range of [long], an argument in which [strtol] finds no digits, a
    negative number and a failed [calloc] of the array each end the program
    with [EXIT_FAILURE] and a message of their own; an argument that starts
    with a number [0 <= n <= INT_MAX] ends it with status 0 when the array
    and the buffers of the merges are allocated.  What follows the digits
    of the number is not looked at. *)
Theorem main_exit_status (env : environment) (argv : list string) :
  let r := strtol (default "" (argv !! 1%nat)) in
  let n := st_value r in
  (length argv ≠ 2%nat →
     main env argv
     = {| events := [Stderr (String.append "Error: usage: "
                           (String.append (default "" (argv !! 0%nat)) " <n>"))];
          ending := Exit EXIT_FAILURE |})
  ∧ (length argv = 2%nat → st_errno r ≠ 0 →
     main env argv
     = {| events := [Stderr "strtol: Numerical result out of range"];
          ending := Exit EXIT_FAILURE |})
  ∧ (length argv = 2%nat → st_errno r = 0 → st_end r = 0%nat →
     main env argv
     = {| events := [Stderr "Error: no digits were found!"];
          ending := Exit EXIT_FAILURE |})
  ∧ (length argv = 2%nat → st_errno r = 0 → st_end r ≠ 0%nat → n < 0 →
     main env argv
     = {| events := [Stderr "Error: matrix size must not be negative!"];
          ending := Exit EXIT_FAILURE |})
  ∧ (length argv = 2%nat → st_errno r = 0 → st_end r ≠ 0%nat → 0 ≤ n →
     calloc_zeroed (env_calloc_arr env) n = None →
     main env argv
     = {| events := [Stdout "MALLOC ERROR"]; ending := Exit EXIT_FAILURE |})
  ∧ (length argv = 2%nat → st_errno r = 0 → st_end r ≠ 0%nat → 0 ≤ n → n ≤ INT_MAX →
     env_calloc_arr env = true →
     (2000 < n → allocations_succeed (env_omp env)) →
     ending (main env argv) = Exit EXIT_SUCCESS).
Proof.
  intros r n. unfold main. fold r. fold n.
  split_and!.
  - intros Hargc. by rewrite (proj2 (Nat.eqb_neq _ _) Hargc).
  - intros -> Herrno. by rewrite (proj2 (Z.eqb_neq _ _) Herrno).
  - intros -> -> ->. done.
  - intros -> -> Hend Hneg. rewrite (proj2 (Nat.eqb_neq _ _) Hend).
    by rewrite (proj2 (Z.ltb_lt _ _) Hneg).
  - intros -> -> Hend Hpos ->. rewrite (proj2 (Nat.eqb_neq _ _) Hend).
    by rewrite (proj2 (Z.ltb_ge _ _) Hpos).
  - intros -> -> Hend Hpos Hint Hok Halloc. rewrite (proj2 (Nat.eqb_neq _ _) Hend).
    rewrite (proj2 (Z.ltb_ge _ _) Hpos). cbn [negb Nat.eqb Z.eqb].
    unfold calloc_zeroed. rewrite Hok.
    destruct (Z.leb_spec 0 n); [|lia].
    destruct (Z.leb_spec (4 * n) SIZE_MAX); [|unfold SIZE_MAX, INT_MAX in *; lia].
    cbn [andb].
    destruct (sort_and_check_done env n (replicate (Z.to_nat n) 0)) as (out & ->);
      [done|done|rewrite length_replicate; lia|done|].
    done.
Qed.

Lemma main_exit_status_witness :
  ending (main env_plain ["sort"; "5"]) = Exit EXIT_SUCCESS
  ∧ main env_plain ["sort"; "five"]
    = {| events := [Stderr "Error: no digits were found!"];
         ending := Exit EXIT_FAILURE |}.
Proof.
  split.
  - apply (main_exit_status env_plain ["sort"; "5"]);
      try reflexivity; try (vm_compute; intros [=]).
  - apply (main_exit_status env_plain ["sort"; "five"]); reflexivity.
Defined.

(** C9 (as the spec has it) fails both ways: an argument that is not a
    number but starts with digits is accepted and the program exits with
    status 0; a non-negative number whose array cannot be allocated is
    refused with [EXIT_FAILURE]. *)
Lemma main_exit_status_counterexample :
  ending (main env_plain ["sort"; "12abc"]) = Exit EXIT_SUCCESS
  ∧ main env_plain ["sort"; "4611686018427387904"]
    = {| events := [Stdout "MALLOC ERROR"]; ending := Exit EXIT_FAILURE |}.
Proof. split; vm_compute; reflexivity. Qed.

(** * Further properties of the sort *)

(** X1: on a range inside the array and with the buffers of the merges
    allocated, the outcome of [merge_sort_recursive] is the same for any two
    runtimes: the order in which the tasks and the iterations of the copy
    loops are run does not show in the sorted array. *)
Theorem merge_sort_recursive_runtime_independent (rt1 rt2 : omp_runtime) (arr : list Z)
    (left right : Z) :
  (left < right → 0 ≤ left ∧ right < Z.of_nat (length arr) ∧ right ≤ INT_MAX) →
  (2000 ≤ right - left → allocations_succeed rt1 ∧ allocations_succeed rt2) →
  merge_sort_recursive rt1 arr left right = merge_sort_recursive rt2 arr left right.
Proof.
  intros Hvalid Halloc.
  destruct (merge_sort_recursive_range_done rt1 arr left right Hvalid) as (a1 & H1 & _);
    [intros; by apply Halloc|].
  destruct (merge_sort_recursive_range_done rt2 arr left right Hvalid) as (a2 & H2 & _);
    [intros; by apply Halloc|].
  rewrite H1, H2. f_equal.
  by apply (merge_sort_recursive_any_runtime rt1 rt2 arr a1 a2 left right).
Qed.

Lemma merge_sort_recursive_runtime_independent_witness :
  merge_sort_recursive rt_in_order (descending 2001) 0 2000
  = merge_sort_recursive rt_reversed (descending 2001) 0 2000.
Proof.
  apply (merge_sort_recursive_runtime_independent rt_in_order rt_reversed
           (descending 2001) 0 2000).
  - intros _. split_and!; [lia|done|unfold INT_MAX; lia].
  - intros _. split; done.
Defined.

(** X2: [merge_sort_recursive] changes the array only inside
    [left..right]: every array it returns has the length of the input and
    holds at every index outside the range the value it held before. *)
Theorem merge_sort_recursive_frame (rt : omp_runtime) (arr : list Z) (left right : Z) :
  (left < right → 0 ≤ left ∧ right < Z.of_nat (length arr) ∧ right ≤ INT_MAX) →
  ∀ arr', merge_sort_recursive rt arr left right = Done arr' →
    length arr' = length arr
    ∧ ∀ q : nat, (Z.of_nat q < left ∨ right < Z.of_nat q) → arr' !! q = arr !! q.
Proof.
  intros Hvalid arr' Hrun.
  destruct (merge_sort_recursive_range rt arr left right Hvalid)
    as [(a & Ha & Hlen & _ & _ & Hframe & _)|(Ha & _)]; [|congruence].
  assert (a = arr') as -> by congruence. done.
Qed.

Lemma merge_sort_recursive_frame_witness :
  length [4; 1; 3; 8; 9; 7] = length [4; 8; 1; 3; 9; 7]
  ∧ ∀ q : nat, (Z.of_nat q < 1 ∨ 3 < Z.of_nat q) →
               [4; 1; 3; 8; 9; 7] !! q = [4; 8; 1; 3; 9; 7] !! q.
Proof.
  apply (merge_sort_recursive_frame rt_reversed [4; 8; 1; 3; 9; 7] 1 3).
  - intros _. simpl. unfold INT_MAX. lia.
  - by vm_compute.
Defined.

(** X3: sorting a range that is already in non-decreasing order gives the
    array back as it was: every returned array is the input, and with the
    buffers of the merges allocated the call returns it. *)
Theorem merge_sort_recursive_sorted_input (rt : omp_runtime) (arr : list Z)
    (left right : Z) :
  (left < right → 0 ≤ left ∧ right < Z.of_nat (length arr) ∧ right ≤ INT_MAX) →
  Sorted Z.le (slice arr left right) →
  (∀ arr', merge_sort_recursive rt arr left right = Done arr' → arr' = arr)
  ∧ ((2000 ≤ right - left → allocations_succeed rt) →
     merge_sort_recursive rt arr left right = Done arr).
Proof.
  intros Hvalid Hsorted.
  assert (∀ arr', merge_sort_recursive rt arr left right = Done arr' → arr' = arr) as Hsame.
  { intros arr' Hrun.
    destruct (Z.lt_ge_cases left right) as [Hlt|Hge].
    2:{ unfold merge_sort_recursive in Hrun.
        rewrite merge_sort_recursive_fuel_base in Hrun by done. congruence. }
    destruct (Hvalid Hlt) as (Hl & Hlen & Hint).
    destruct (merge_sort_recursive_range rt arr left right Hvalid)
      as [(a & Ha & _ & Hs & Hp & _ & Hcut)|(Ha & _)]; [|congruence].
    assert (a = arr') as -> by congruence.
    destruct (range_split arr left right) as [Harr _]; [lia..|].
    assert (slice arr' left right = slice arr left right) as Heq
      by (apply (Sorted_unique Z.le); [by apply Hs|done|done]).
    etrans; [apply (Hcut Hlt)|]. rewrite Heq. by symmetry. }
  split; [done|]. intros Halloc.
  destruct (merge_sort_recursive_range_done rt arr left right Hvalid Halloc)
    as (arr' & Hrun & _).
  by rewrite Hrun, (Hsame arr' Hrun).
Qed.

Lemma merge_sort_recursive_sorted_input_witness :
  (∀ arr', merge_sort_recursive rt_reversed [9; 1; 2; 2; 5; 0] 1 4 = Done arr' →
           arr' = [9; 1; 2; 2; 5; 0])
  ∧ ((2000 ≤ 4 - 1 → allocations_succeed rt_reversed) →
     merge_sort_recursive rt_reversed [9; 1; 2; 2; 5; 0] 1 4 = Done [9; 1; 2; 2; 5; 0]).
Proof.
  apply (merge_sort_recursive_sorted_input rt_reversed [9; 1; 2; 2; 5; 0] 1 4).
  - intros _. simpl. unfold INT_MAX. lia.
  - unfold slice. simpl. repeat constructor; lia.
Defined.

(** X4: neither merge needs its two runs to be sorted to keep the values:
    on any range inside the array the range of the returned array is the
    merge of the two runs that takes the left head whenever it is not
    greater than the right head, and so a permutation of the range before. *)
Theorem merge_keeps_values (rt : omp_runtime) (arr : list Z) (left mid right : Z) :
  0 ≤ left → left ≤ mid → mid < right → right < Z.of_nat (length arr) → right ≤ INT_MAX →
  (∃ arr', merge_sequential arr left mid right = Done arr'
     ∧ slice arr' left right
       = list_merge Z.le (slice arr left mid) (slice arr (mid + 1) right)
     ∧ slice arr' left right ≡ₚ slice arr left right)
  ∧ (∀ arr', merge_parallel rt arr left mid right = Done arr' →
       slice arr' left right
       = list_merge Z.le (slice arr left mid) (slice arr (mid + 1) right)
       ∧ slice arr' left right ≡ₚ slice arr left right).
Proof.
  intros Hl Hm Hr Hlen Hint.
  destruct (merge_sequential_done arr left mid right) as (arr1 & Hseq & _ & Hslice & _);
    [done..|].
  assert (slice arr1 left right ≡ₚ slice arr left right) as Hperm
    by (by rewrite Hslice, merge_Permutation, (slice_cut arr left mid right) by lia).
  split.
  - by exists arr1.
  - intros arr' Hpar%merge_parallel_done; [|done..].
    rewrite Hseq in Hpar. by injection Hpar as <-.
Qed.

Lemma merge_keeps_values_witness :
  (∃ arr', merge_sequential [0; 5; 2; 4; 1; 0] 1 2 4 = Done arr'
     ∧ slice arr' 1 4
       = list_merge Z.le (slice [0; 5; 2; 4; 1; 0] 1 2) (slice [0; 5; 2; 4; 1; 0] (2 + 1) 4)
     ∧ slice arr' 1 4 ≡ₚ slice [0; 5; 2; 4; 1; 0] 1 4)
  ∧ (∀ arr', merge_parallel rt_reversed [0; 5; 2; 4; 1; 0] 1 2 4 = Done arr' →
       slice arr' 1 4
       = list_merge Z.le (slice [0; 5; 2; 4; 1; 0] 1 2) (slice [0; 5; 2; 4; 1; 0] (2 + 1) 4)
       ∧ slice arr' 1 4 ≡ₚ slice [0; 5; 2; 4; 1; 0] 1 4).
Proof.
  apply (merge_keeps_values rt_reversed [0; 5; 2; 4; 1; 0] 1 2 4);
    try lia; try (simpl; lia); unfold INT_MAX; lia.
Defined.

Example merge_of_unsorted_runs :
  merge_sequential [0; 5; 2; 4; 1; 0] 1 2 4 = Done [0; 4; 1; 5; 2; 0].
Proof. reflexivity. Qed.

(** X5: on a range inside the array the sort stays inside the array and its
    buffers and comes to an end: a range of at most 2000 elements is always
    sorted and returned, and the only outcome other than a returned array is
    the store through NULL of a [merge_parallel] whose [calloc] failed. *)
Theorem merge_sort_recursive_safe (rt : omp_runtime) (arr : list Z) (left right : Z) :
  (left < right → 0 ≤ left ∧ right < Z.of_nat (length arr) ∧ right ≤ INT_MAX) →
  (right - left < 2000 → ∃ arr', merge_sort_recursive rt arr left right = Done arr')
  ∧ (∀ f, merge_sort_recursive rt arr left right = Undefined f →
          f = NullPointer ∧ 2000 ≤ right - left ∧ ¬ allocations_succeed rt)
  ∧ merge_sort_recursive rt arr left right ≠ OutOfFuel.
Proof.
  intros Hvalid.
  destruct (merge_sort_recursive_range rt arr left right Hvalid)
    as [(a & Ha & _)|(Ha & Hbig & Hno)]; rewrite Ha; split_and!; try done.
  - by eauto.
  - lia.
  - intros f [= <-]. done.
Qed.

Lemma merge_sort_recursive_safe_witness :
  (3 - 0 < 2000 → ∃ arr', merge_sort_recursive rt_no_memory [4; 3; 2; 1] 0 3 = Done arr')
  ∧ (∀ f, merge_sort_recursive rt_no_memory [4; 3; 2; 1] 0 3 = Undefined f →
          f = NullPointer ∧ 2000 ≤ 3 - 0 ∧ ¬ allocations_succeed rt_no_memory)
  ∧ merge_sort_recursive rt_no_memory [4; 3; 2; 1] 0 3 ≠ OutOfFuel.
Proof.
  apply (merge_sort_recursive_safe rt_no_memory [4; 3; 2; 1] 0 3).
  intros _. simpl. unfold INT_MAX. lia.
Defined.

(** ** A failed allocation of the last merge *)

Lemma merge_sort_recursive_fuel_large (rt : omp_runtime) (fuel : nat) (arr : list Z)
    (left right : Z) :
  INT_MIN ≤ left → right ≤ INT_MAX → right - left ≤ INT_MAX → 2000 ≤ right - left →
  merge_sort_recursive_fuel (S fuel) rt arr left right
  = (a ← omp_tasks_taskwait (task_first rt left right)
           (λ a, merge_sort_recursive_fuel fuel rt a left (left + (right - left) `div` 2))
           (λ a, merge_sort_recursive_fuel fuel rt a
                   (left + (right - left) `div` 2 + 1) right)
           arr;
     merge_parallel rt a left (left + (right - left) `div` 2) right).
Proof.
  intros Hl Hr Hsize Hbig. cbn [merge_sort_recursive_fuel].
  destruct (Z.ltb_spec left right); [|lia].
  rewrite int_sub_id by (unfold INT_MIN, INT_MAX in *; lia).
  rewrite int_div_2 by lia.
  assert (0 ≤ (right - left) `div` 2 ∧ 2 * ((right - left) `div` 2) ≤ right - left) as Hh.
  { pose proof (Z.div_mod (right - left) 2).
    pose proof (Z.mod_pos_bound (right - left) 2). lia. }
  rewrite (int_add_id left) by (unfold INT_MIN, INT_MAX in *; lia).
  rewrite (int_add_id _ 1) by (unfold INT_MIN, INT_MAX in *; lia).
  by destruct (Z.ltb_spec (right - left) 2000); [lia|].
Qed.

(** A half is sorted in place or ends in the null store. *)
Lemma merge_sort_recursive_fuel_half (rt : omp_runtime) (fuel : nat) (arr : list Z)
    (left right : Z) :
  0 ≤ left → left ≤ right → right < Z.of_nat (length arr) → right ≤ INT_MAX →
  right - left ≤ Z.of_nat fuel →
  (∃ arr', merge_sort_recursive_fuel fuel rt arr left right = Done arr'
           ∧ length arr' = length arr)
  ∨ merge_sort_recursive_fuel fuel rt arr left right = Undefined NullPointer.
Proof.
  intros Hl Hlr Hlen Hint Hfuel.
  rewrite (merge_sort_recursive_fuel_enough rt fuel (Z.to_nat (right - left)))
    by (unfold INT_MIN in *; lia).
  destruct (merge_sort_recursive_range rt arr left right)
    as [(a & Ha & Hlena & _)|(Ha & _)]; [lia| |by right].
  left. by exists a.
Qed.

(** X6: for a range of more than 2000 elements inside the array, when the
    [calloc] of [L] or of [R] in the merge of the whole range fails, the call
    of [merge_sort_recursive] does not return: it ends in the store through
    NULL, whatever the values in the array and whatever else the runtime
    decides. *)
Theorem merge_sort_recursive_failed_top_calloc (rt : omp_runtime) (arr : list Z)
    (left right : Z) :
  0 ≤ left → right < Z.of_nat (length arr) → right ≤ INT_MAX →
  2000 ≤ right - left →
  calloc_ok rt left right RunL = false ∨ calloc_ok rt left right RunR = false →
  merge_sort_recursive rt arr left right = Undefined NullPointer.
Proof.
  intros Hl Hlen Hint Hbig Hfail. unfold merge_sort_recursive.
  destruct (Z.to_nat (right - left)) as [|fuel] eqn:Hfuel; [lia|].
  rewrite merge_sort_recursive_fuel_large by (unfold INT_MIN in *; lia).
  set (mid := left + (right - left) `div` 2).
  assert (left ≤ mid ∧ mid < right ∧ right - (mid + 1) ≤ Z.of_nat fuel
          ∧ mid - left ≤ Z.of_nat fuel) as (Hm1 & Hm2 & Hf2 & Hf1).
  { subst mid. pose proof (Z.div_mod (right - left) 2).
    pose proof (Z.mod_pos_bound (right - left) 2). lia. }
  assert (∀ a, length a = length arr →
    merge_parallel rt a left mid right = Undefined NullPointer) as Hmerge.
  { intros a Ha. apply merge_parallel_failed_calloc; try done; lia. }
  unfold omp_tasks_taskwait. destruct (task_first rt left right).
  - destruct (merge_sort_recursive_fuel_half rt fuel arr left mid)
      as [(a1 & -> & Ha1)| ->]; [lia..| |done].
    cbn [mbind outcome_bind].
    destruct (merge_sort_recursive_fuel_half rt fuel a1 (mid + 1) right)
      as [(a2 & -> & Ha2)| ->]; [lia..| |done].
    cbn [mbind outcome_bind]. apply Hmerge. congruence.
  - destruct (merge_sort_recursive_fuel_half rt fuel arr (mid + 1) right)
      as [(a1 & -> & Ha1)| ->]; [lia..| |done].
    cbn [mbind outcome_bind].
    destruct (merge_sort_recursive_fuel_half rt fuel a1 left mid)
      as [(a2 & -> & Ha2)| ->]; [lia..| |done].
    cbn [mbind outcome_bind]. apply Hmerge. congruence.
Qed.

Lemma merge_sort_recursive_failed_top_calloc_witness :
  merge_sort_recursive rt_no_memory (replicate 2001 7) 0 2000 = Undefined NullPointer.
Proof.
  apply (merge_sort_recursive_failed_top_calloc rt_no_memory (replicate 2001 7) 0 2000).
  - lia.
  - rewrite length_replicate. lia.
  - unfold INT_MAX. lia.
  - lia.
  - by left.
Defined.

(** ** The check outside the array *)

(** X7: [is_array_sorted] does not guard [n]: a negative [n], and an [n] of
    two or more that exceeds the length of the array, make its first
    comparison read outside the array. *)
Theorem is_array_sorted_out_of_range (arr : list Z) (n : Z) :
  INT_MIN < n → n ≤ INT_MAX →
  n < 0 ∨ (2 ≤ n ∧ Z.of_nat (length arr) < n) →
  is_array_sorted arr n = Undefined OutOfBounds.
Proof.
  intros Hmin Hmax Hout. unfold is_array_sorted.
  assert (∀ fuel, is_array_sorted_with (arr_load arr) fuel n = Undefined OutOfBounds)
    as Hany; [|apply Hany].
  intros fuel.
  assert (arr_load arr (int_sub n 1) = Undefined OutOfBounds) as Hload.
  { rewrite int_sub_id by (unfold INT_MIN, INT_MAX in *; lia). unfold arr_load.
    destruct (Z.ltb_spec (n - 1) 0); [done|].
    by rewrite lookup_ge_None_2 by lia. }
  destruct fuel; cbn [is_array_sorted_with];
    destruct (Z.eqb_spec n 1); try lia; destruct (Z.eqb_spec n 0); try lia;
    cbn [orb]; by rewrite Hload.
Qed.

Lemma is_array_sorted_out_of_range_witness :
  is_array_sorted [1; 2; 3] 5 = Undefined OutOfBounds
  ∧ is_array_sorted [1; 2; 3] (-1) = Undefined OutOfBounds.
Proof.
  split.
  - apply (is_array_sorted_out_of_range [1; 2; 3] 5);
      [unfold INT_MIN; lia|unfold INT_MAX; lia|right; simpl; lia].
  - apply (is_array_sorted_out_of_range [1; 2; 3] (-1));
      [unfold INT_MIN; lia|unfold INT_MAX; lia|left; lia].
Defined.

(** ** What the harness prints *)

Lemma for_each_store (rand : Z → Z) (n : nat) :
  ∀ (iters : list nat) (a : list Z),
    length a = n →
    Forall (λ q, q < n)%nat iters →
    ∃ a', for_each (λ i a, arr_store a i (rand i)) (Z.of_nat <$> iters) a = Done a'
          ∧ length a' = n
          ∧ ∀ q, a' !! q = if decide (q ∈ iters) then Some (rand (Z.of_nat q)) else a !! q.
Proof.
  induction iters as [|it rest IH]; intros a Ha Hin.
  - exists a. split_and!; [done..|]. intros q.
    by rewrite decide_False by apply not_elem_of_nil.
  - apply Forall_cons in Hin as [Hit Hrest].
    assert (length (<[it := rand (Z.of_nat it)]> a) = n) as Ha'
      by by rewrite length_insert.
    destruct (IH _ Ha' Hrest) as (a' & Hrun & Hlen & Hlook).
    exists a'. split_and!; [|done|].
    + cbn [fmap list_fmap for_each]. rewrite arr_store_insert by lia. exact Hrun.
    + intros q. rewrite Hlook. destruct (decide (q ∈ rest)) as [Hq|Hq].
      * by rewrite decide_True by (by apply list_elem_of_further).
      * destruct (decide (q = it)) as [->|Hne].
        -- rewrite decide_True by apply list_elem_of_here.
           by rewrite list_lookup_insert_eq by lia.
        -- rewrite decide_False by (rewrite elem_of_cons; tauto).
           by rewrite list_lookup_insert_ne.
Qed.

(** Whatever the order of its iterations, the fill loop leaves [rand i] in
    [arr[i]]. *)
Lemma fill_values (pick : nat → nat) (rand : Z → Z) (n : Z) (arr : list Z) :
  0 ≤ n → n ≤ INT_MAX → Z.of_nat (length arr) = n →
  omp_for_int_below pick n (λ i a, arr_store a i (rand i)) arr = Done (rand <$> seqZ 0 n).
Proof.
  intros Hn Hint Hlen. unfold omp_for_int_below, omp_for.
  destruct (Z.leb_spec n INT_MAX); [|lia].
  pose proof (omp_schedule_Permutation pick (Z.to_nat n)) as Hperm.
  destruct (for_each_store rand (Z.to_nat n) (omp_schedule pick (Z.to_nat n)) arr)
    as (a' & -> & Hlen' & Hlook); [lia| |].
  { apply Forall_forall. intros q Hq. rewrite Hperm in Hq. apply elem_of_seq in Hq. lia. }
  f_equal. apply list_eq. intros q. rewrite Hlook, list_lookup_fmap.
  destruct (decide (q < Z.to_nat n)%nat) as [Hq|Hq].
  - rewrite decide_True by (rewrite Hperm; apply elem_of_seq; lia).
    rewrite lookup_seqZ_lt by lia. done.
  - rewrite decide_False by (rewrite Hperm, elem_of_seq; lia).
    rewrite lookup_seqZ_ge by lia. rewrite lookup_ge_None_2 by lia. done.
Qed.

Lemma print_cells (arr : list Z) :
  ∀ (m k : nat) (out : list event),
    (k + m ≤ length arr)%nat →
    for_each (λ i out, v ← arr_load arr i; Done (out ++ [StdoutInt v]))
      (seqZ (Z.of_nat k) (Z.of_nat m)) out
    = Done (out ++ (StdoutInt <$> take m (drop k arr))).
Proof.
  induction m as [|m IH]; intros k out Hlen.
  - rewrite seqZ_nil by lia. simpl. by rewrite app_nil_r.
  - rewrite seqZ_cons by lia. cbn [for_each].
    destruct (lookup_lt_is_Some_2 arr k) as [v Hv]; [lia|].
    rewrite (arr_load_lookup arr k v Hv). cbn [mbind outcome_bind].
    replace (Z.succ (Z.of_nat k)) with (Z.of_nat (S k)) by lia.
    replace (Z.pred (Z.of_nat (S m))) with (Z.of_nat m) by lia.
    rewrite IH by lia. f_equal. rewrite <-(assoc_L (++)). f_equal.
    rewrite (drop_S arr v k Hv). done.
Qed.

Lemma print_array_cells (arr : list Z) (n : Z) (out : list event) :
  0 ≤ n → n ≤ INT_MAX → Z.of_nat (length arr) = n →
  print_array arr n out = Done (out ++ (StdoutInt <$> arr)).
Proof.
  intros Hn Hint Hlen. unfold print_array.
  rewrite for_int_below_for_loop by done. unfold for_loop.
  rewrite <-(Z2Nat.id n) by done.
  rewrite (print_cells arr (Z.to_nat n) 0) by (simpl; lia).
  by rewrite drop_0, take_ge by lia.
Qed.

(** The run from the fill loop to the assert: the values, then the same
    values sorted, and 1 from [is_array_sorted]; or the null store of a
    [merge_parallel] whose [calloc] failed. *)
Lemma sort_and_check_outcome (env : environment) (n : Z) (arr : list Z) :
  0 ≤ n → n ≤ INT_MAX → Z.of_nat (length arr) = n →
  sort_and_check env n arr
  = Done ([Stdout "Before: "] ++ (StdoutInt <$> (env_rand env <$> seqZ 0 n))
            ++ [Stdout ""; Stdout "After: "]
            ++ (StdoutInt <$> merge_sort Z.le (env_rand env <$> seqZ 0 n))
            ++ [Stdout ""], 1)
  ∨ (sort_and_check env n arr = Undefined NullPointer
     ∧ 2000 < n ∧ ¬ allocations_succeed (env_omp env)).
Proof.
  intros Hn Hint Hlen. unfold sort_and_check.
  rewrite fill_values by done. cbn [mbind outcome_bind].
  set (values := env_rand env <$> seqZ 0 n).
  assert (Z.of_nat (length values) = n) as Hvalues
    by (subst values; rewrite length_fmap, length_seqZ; lia).
  rewrite print_array_cells by done. cbn [mbind outcome_bind].
  rewrite !wrap_int_id by (unfold INT_MIN, INT_MAX in *; lia).
  destruct (merge_sort_recursive_range (env_omp env) values 0 (n - 1))
    as [(sorted & -> & Hlens & Hs & Hp & _)|(-> & Hbig & Hno)]; [lia| |].
  - left. cbn [mbind outcome_bind].
    rewrite print_array_cells by lia. cbn [mbind outcome_bind].
    rewrite !slice_from_0, !take_ge in Hp by lia.
    assert (Sorted Z.le sorted) as Hsorted.
    { destruct (Z.lt_ge_cases 0 (n - 1)) as [Hlt|Hge].
      - specialize (Hs Hlt). by rewrite slice_from_0, take_ge in Hs by lia.
      - apply Sorted_short. lia. }
    assert (sorted = merge_sort Z.le values) as ->.
    { apply (Sorted_unique Z.le); [done|by apply (Sorted_merge_sort Z.le)|].
      by rewrite Hp, merge_sort_Permutation. }
    rewrite is_array_sorted_take, take_ge by (rewrite ?length_fmap; lia).
    rewrite decide_True by done. cbn [mbind outcome_bind].
    by rewrite <-!(assoc_L (++)).
  - right. split_and!; [done|lia|done].
Qed.

(** X8: a run that gets through its checks ([argv] of two entries, a number
    [0 <= n <= INT_MAX] at the start of the argument, the array and the
    buffers of the merges allocated) prints the [n] generated values in the
    order of their indices, then the same values in non-decreasing order,
    then the time, and exits with status 0. *)
Theorem main_prints_sorted (env : environment) (prog str : string) :
  let n := st_value (strtol str) in
  let values := env_rand env <$> seqZ 0 n in
  st_errno (strtol str) = 0 → st_end (strtol str) ≠ 0%nat →
  0 ≤ n → n ≤ INT_MAX →
  env_calloc_arr env = true →
  (2000 < n → allocations_succeed (env_omp env)) →
  main env [prog; str]
  = {| events := [Stdout "Before: "] ++ (StdoutInt <$> values)
                   ++ [Stdout ""; Stdout "After: "]
                   ++ (StdoutInt <$> merge_sort Z.le values)
                   ++ [Stdout ""; StdoutTime];
       ending := Exit EXIT_SUCCESS |}.
Proof.
  intros n values Herrno Hend Hn Hint Hok Halloc. unfold main.
  change (length [prog; str] =? 2)%nat with true.
  change (default "" ([prog; str] !! 1%nat)) with str.
  fold n. rewrite Herrno. cbn [Z.eqb negb].
  rewrite (proj2 (Nat.eqb_neq _ _) Hend), (proj2 (Z.ltb_ge _ _) Hn).
  unfold calloc_zeroed. rewrite Hok.
  destruct (Z.leb_spec 0 n); [|lia].
  destruct (Z.leb_spec (4 * n) SIZE_MAX); [|unfold SIZE_MAX, INT_MAX in *; lia].
  cbn [andb].
  destruct (sort_and_check_outcome env n (replicate (Z.to_nat n) 0))
    as [-> |(_ & Hbig & Hno)]; [done|done|rewrite length_replicate; lia| |].
  - cbn [Z.eqb]. f_equal. fold values. by rewrite <-!(assoc_L (++)).
  - destruct Hno. by apply Halloc.
Qed.

Lemma main_prints_sorted_witness :
  main env_plain ["sort"; "4"]
  = {| events := [Stdout "Before: "] ++ (StdoutInt <$> [3; 1; 6; 4])
                   ++ [Stdout ""; Stdout "After: "]
                   ++ (StdoutInt <$> [1; 3; 4; 6])
                   ++ [Stdout ""; StdoutTime];
       ending := Exit EXIT_SUCCESS |}.
Proof.
  apply (main_prints_sorted env_plain "sort" "4");
    try reflexivity; try (vm_compute; intros [=]).
Defined.

(** X9: the assert of [main] never fires.  Whatever the arguments, the
    allocator and the runtime, a run whose [n] fits an [int] ends with
    [EXIT_FAILURE], with [EXIT_SUCCESS], or in the null store of a
    [merge_parallel] whose [calloc] failed (more than 2000 elements only);
    it is never aborted and it comes to an end. *)
Theorem main_endings (env : environment) (argv : list string) :
  st_value (strtol (default "" (argv !! 1%nat))) ≤ INT_MAX →
  ending (main env argv) = Exit EXIT_FAILURE
  ∨ ending (main env argv) = Exit EXIT_SUCCESS
  ∨ (ending (main env argv) = Crashed NullPointer
     ∧ 2000 < st_value (strtol (default "" (argv !! 1%nat)))
     ∧ ¬ allocations_succeed (env_omp env)).
Proof.
  intros Hint. unfold main.
  destruct (negb (length argv =? 2)%nat); [by left|].
  set (r := strtol (default "" (argv !! 1%nat))) in *.
  destruct (negb (st_errno r =? 0)); [by left|].
  destruct (st_end r =? 0)%nat; [by left|].
  destruct (Z.ltb_spec (st_value r) 0) as [|Hn]; [by left|].
  destruct (calloc_zeroed (env_calloc_arr env) (st_value r)) as [arr|] eqn:Hcalloc;
    [|by left].
  assert (Z.of_nat (length arr) = st_value r) as Hlen.
  { unfold calloc_zeroed in Hcalloc.
    destruct (env_calloc_arr env && (0 <=? st_value r) && (4 * st_value r <=? SIZE_MAX));
      [|done].
    injection Hcalloc as <-. rewrite length_replicate. lia. }
  destruct (sort_and_check_outcome env (st_value r) arr) as [-> |(-> & Hbig & Hno)];
    [done..| |].
  - right. by left.
  - right. by right.
Qed.

Lemma main_endings_witness :
  let env_starved := {| env_calloc_arr := true; env_rand := env_rand env_plain;
                        env_fill_pick := env_fill_pick env_plain;
                        env_omp := rt_no_memory |} in
  (ending (main env_plain ["sort"; "4"]) = Exit EXIT_FAILURE
   ∨ ending (main env_plain ["sort"; "4"]) = Exit EXIT_SUCCESS
   ∨ (ending (main env_plain ["sort"; "4"]) = Crashed NullPointer
      ∧ 2000 < st_value (strtol (default "" (["sort"; "4"] !! 1%nat)))
      ∧ ¬ allocations_succeed (env_omp env_plain)))
  ∧ (ending (main env_starved ["sort"; "2001"]) = Exit EXIT_FAILURE
     ∨ ending (main env_starved ["sort"; "2001"]) = Exit EXIT_SUCCESS
     ∨ (ending (main env_starved ["sort"; "2001"]) = Crashed NullPointer
        ∧ 2000 < st_value (strtol (default "" (["sort"; "2001"] !! 1%nat)))
        ∧ ¬ allocations_succeed (env_omp env_starved))).
Proof.
  split.
  - apply (main_endings env_plain ["sort"; "4"]). vm_compute. intros [=].
  - apply (main_endings
             {| env_calloc_arr := true; env_rand := env_rand env_plain;
                env_fill_pick := env_fill_pick env_plain; env_omp := rt_no_memory |}
             ["sort"; "2001"]).
    vm_compute. intros [=].
Defined.

(** * Properties of calculate_folder_size.c *)

Import FolderSize.

Example folder_small :
  calculate_folder_size 3 sys_small "/d"
  = Returned (4096 + 10 + 4096 + 2, [Stderr "LSTAT ERROR"]).
Proof. reflexivity. Qed.

(** A file of 4 GiB and 5 bytes is reported with 5 bytes. *)
Example folder_wraps :
  calculate_folder_size 1
    {| lstat := λ _, Some {| st_is_reg := true; st_size := 4294967301 |};
       opendir := λ _, None; malloc_ok := λ _, true; strdup_ok := λ _, true;
       task_pick := λ _ _, O |} "/big"
  = Returned (5, []).
Proof. reflexivity. Qed.

(** ** Sizes up to a multiple of 2^32 *)

Lemma same_int_iff a b : same_int a b ↔ ∃ k, a = b + 4294967296 * k.
Proof.
  unfold same_int, wrap_int. split.
  - intros H.
    exists ((a + 2147483648) `div` 4294967296 - (b + 2147483648) `div` 4294967296).
    pose proof (Z.div_mod (a + 2147483648) 4294967296).
    pose proof (Z.div_mod (b + 2147483648) 4294967296). lia.
  - intros [k ->]. f_equal.
    replace (b + 4294967296 * k + 2147483648) with (b + 2147483648 + k * 4294967296) by lia.
    by rewrite Z.mod_add.
Qed.

Lemma same_int_refl a : same_int a a.
Proof. done. Qed.

Lemma same_int_wrap_int a : same_int (wrap_int a) a.
Proof.
  apply same_int_iff. exists (- ((a + 2147483648) `div` 4294967296)).
  unfold wrap_int. pose proof (Z.div_mod (a + 2147483648) 4294967296). lia.
Qed.

Lemma same_int_add a a' b b' : same_int a a' → same_int b b' → same_int (a + b) (a' + b').
Proof.
  rewrite !same_int_iff. intros [k ->] [k' ->]. exists (k + k'). lia.
Qed.

Lemma same_int_wrap_size a : same_int (wrap_size a) a.
Proof.
  apply same_int_iff. exists (- (a `div` 18446744073709551616) * 4294967296).
  unfold wrap_size. pose proof (Z.div_mod a 18446744073709551616). lia.
Qed.

Lemma same_int_trans a b c : same_int a b → same_int b c → same_int a c.
Proof. unfold same_int. congruence. Qed.

(** [size += r] in [size_t]. *)
Lemma same_int_size_add size r e v :
  same_int size e → same_int r v → same_int (wrap_size (size + wrap_size r)) (e + v).
Proof.
  intros Hs Hr. eapply same_int_trans; [apply same_int_wrap_size|].
  apply same_int_add; [done|].
  eapply same_int_trans; [apply same_int_wrap_size|done].
Qed.

(** ** The tasks of a folder *)

Lemma omap_lookup_seq {A : Type} (l1 l2 : list A) :
  omap (λ k, (l1 ++ l2) !! k) (seq (length l1) (length l2)) = l2.
Proof.
  revert l1. induction l2 as [|x l2 IH]; intros l1; [done|].
  cbn [length seq omap list_omap]. rewrite list_lookup_middle by done.
  f_equal. specialize (IH (l1 ++ [x])).
  rewrite <-(assoc_L (++)), length_app, Nat.add_1_r in IH. exact IH.
Qed.

(** Every task is run, once. *)
Lemma in_run_order_Permutation {A : Type} (pick : nat → nat) (l : list A) :
  in_run_order pick l ≡ₚ l.
Proof.
  unfold in_run_order. rewrite omp_schedule_Permutation.
  pose proof (omap_lookup_seq [] l) as Hl. simpl in Hl. by rewrite Hl.
Qed.

Lemma in_run_order_fmap {A B : Type} (f : A → B) (pick : nat → nat) (l : list A) :
  in_run_order pick (f <$> l) = f <$> in_run_order pick l.
Proof.
  unfold in_run_order. rewrite length_fmap.
  induction (omp_schedule pick (length l)) as [|k ks IH]; [done|].
  cbn [omap list_omap]. rewrite list_lookup_fmap.
  destruct (l !! k); simpl; by rewrite IH.
Qed.

Lemma sum_of_Permutation {A : Type} (f : A → Z) (l1 l2 : list A) :
  l1 ≡ₚ l2 → sum_of f l1 = sum_of f l2.
Proof.
  unfold sum_of. induction 1; simpl; lia.
Qed.

Lemma run_tasks_returns (walk : string → result (Z * list event)) (names : list string) :
  (∀ n, n ∈ names → ∃ r l, walk n = Returned (r, l)) →
  ∀ size log, ∃ size' log',
    run_tasks walk (Some <$> names) size log = Returned (size', log')
    ∧ same_int size' (size + sum_of (returned_size walk) names).
Proof.
  induction names as [|n names IH]; intros Hret size log.
  - exists size, log. split; [done|]. unfold sum_of. simpl.
    rewrite Z.add_0_r. apply same_int_refl.
  - destruct (Hret n) as (r & l & Hn); [apply list_elem_of_here|].
    destruct (IH (λ n' Hn', Hret n' (list_elem_of_further _ _ _ Hn'))
                (wrap_size (size + wrap_size r)) (log ++ l))
      as (size' & log' & Hrun & Hsame).
    exists size', log'. split.
    + cbn [fmap list_fmap run_tasks]. by rewrite Hn.
    + eapply same_int_trans; [exact Hsame|].
      unfold sum_of at 2. cbn [foldr]. fold (sum_of (returned_size walk) names).
      unfold returned_size at 2. rewrite Hn.
      replace (size + (r + sum_of (returned_size walk) names))
        with (size + r + sum_of (returned_size walk) names) by lia.
      apply same_int_add; [|apply same_int_refl].
      apply same_int_size_add; apply same_int_refl.
Qed.

(** ** The loop over the entries *)

Section listing.
Variables (sys : system) (path : string) (shown : string → tree → Prop).
Variable tidy_tree : tree → bool.
Hypothesis Hmalloc : ∀ name, malloc_ok sys name = true.
Hypothesis Hstrdup : ∀ name, strdup_ok sys name = true.

Lemma visit_all_tidy (entries : list dirent) (items : list item) :
  Forall2 (entry_is sys shown path) entries items →
  ∀ (s : folder_state) (pending : bool),
    tidy_items tidy_tree pending items = true →
    (pending = false → fs_tasks s = []) →
    ∃ s', visit_all sys path entries s = Returned s'
      ∧ same_int (fs_size s') (fs_size s + sum_of plain_size items)
      ∧ fs_tasks s' = fs_tasks s ++ (Some <$> omap (sub_path path) items).
Proof.
  induction 1 as [|e it entries items He _ IH]; intros s pending Htidy Hpending.
  - exists s. split_and!; [done| |by rewrite app_nil_r].
    unfold sum_of. simpl. rewrite Z.add_0_r. apply same_int_refl.
  - cbn [visit_all]. unfold visit. rewrite Hmalloc. cbn [negb].
    destruct it as [name|name t|name [size|]]; cbn [entry_is] in He;
      cbn [tidy_items] in Htidy.
    + destruct He as (Hname & -> & Hdots).
      assert (negb (String.eqb (d_name e) ".") && negb (String.eqb (d_name e) "..") = false)
        as -> by (rewrite Hname; destruct Hdots as [-> | ->]; done).
      destruct (IH s pending Htidy Hpending) as (s' & Hrun & Hsize & Htasks).
      exists s'. split_and!; [done| |done].
      unfold sum_of in *. simpl. by rewrite Z.add_0_l.
    + destruct He as (Hname & -> & Hne1 & Hne2 & _).
      assert (negb (String.eqb (d_name e) ".") && negb (String.eqb (d_name e) "..") = true)
        as ->.
      { rewrite Hname.
        by rewrite (proj2 (String.eqb_neq _ _) Hne1), (proj2 (String.eqb_neq _ _) Hne2). }
      rewrite Hstrdup. apply andb_true_iff in Htidy as [_ Htidy].
      destruct (IH {| fs_size := fs_size s; fs_log := fs_log s;
                      fs_tasks := fs_tasks s ++ [Some (entry_name path e)] |}
                  true Htidy) as (s' & Hrun & Hsize & Htasks); [done|].
      exists s'. split_and!; [done| |].
      * unfold sum_of in *. simpl in *. by rewrite Z.add_0_l.
      * rewrite Htasks. cbn [fs_tasks omap list_omap sub_path fmap list_fmap].
        rewrite <-(assoc_L (++)). unfold entry_name. by rewrite Hname.
    + destruct He as (Hname & -> & Hlstat).
      destruct (lstat sys (entry_name path e)) as [sb|] eqn:Hsb; [|done].
      injection Hlstat as Hsize0.
      apply andb_true_iff in Htidy as [Hnone%negb_true_iff Htidy].
      pose proof (Hpending Hnone) as Hempty.
      destruct (fs_tasks s) as [|? ?] eqn:Hs; [clear Hempty|done].
      destruct (IH {| fs_size := wrap_size (fs_size s + wrap_size (st_size sb));
                      fs_log := fs_log s; fs_tasks := [] |} pending Htidy)
        as (s' & Hrun & Hsize & Htasks); [done|].
      exists s'. split_and!; [done| |by rewrite Htasks].
      eapply same_int_trans; [exact Hsize|]. cbn [fs_size].
      unfold sum_of at 2. cbn [foldr plain_size]. fold (sum_of plain_size items).
      replace (fs_size s + (size + sum_of plain_size items))
        with (fs_size s + size + sum_of plain_size items) by lia.
      apply same_int_add; [|apply same_int_refl].
      rewrite Hsize0. apply same_int_size_add; apply same_int_refl.
    + destruct He as (Hname & -> & Hlstat).
      destruct (lstat sys (entry_name path e)) as [sb|] eqn:Hsb; [done|].
      destruct (IH {| fs_size := fs_size s; fs_log := fs_log s ++ [Stderr "LSTAT ERROR"];
                      fs_tasks := fs_tasks s |} pending Htidy Hpending)
        as (s' & Hrun & Hsize & Htasks).
      exists s'. split_and!; [done| |done].
      unfold sum_of in *. simpl in *. by rewrite Z.add_0_l.
Qed.

Lemma subs_shown (entries : list dirent) (items : list item) :
  Forall2 (entry_is sys shown path) entries items →
  ∀ pending, tidy_items tidy_tree pending items = true →
  Forall (λ it, match it with
                | Sub name t => shown (path +:+ "/" +:+ name) t ∧ tidy_tree t = true
                | _ => True
                end) items.
Proof.
  induction 1 as [|e it entries items He _ IH]; intros pending Htidy; [constructor|].
  destruct it as [name|name t|name [size|]]; cbn [entry_is tidy_items] in *.
  - constructor; [done|by eapply IH].
  - apply andb_true_iff in Htidy as [Ht Htidy].
    destruct He as (Hname & _ & _ & _ & Hshown).
    constructor; [|by eapply IH]. unfold entry_name in Hshown. by rewrite Hname in Hshown.
  - apply andb_true_iff in Htidy as [_ Htidy]. constructor; [done|by eapply IH].
  - constructor; [done|by eapply IH].
Qed.
End listing.

Lemma task_values (walk : string → result (Z * list event)) (path : string)
    (items : list item) :
  Forall (λ it, match it with
                | Sub name t =>
                    ∃ l, walk (path +:+ "/" +:+ name) = Returned (wrap_int (tree_total t), l)
                | _ => True
                end) items →
  (∀ n, n ∈ omap (sub_path path) items → ∃ r l, walk n = Returned (r, l))
  ∧ same_int (sum_of (returned_size walk) (omap (sub_path path) items))
      (sum_of sub_total items).
Proof.
  induction 1 as [|it items Hit _ [IH1 IH2]].
  - split; [by intros n Hn%elem_of_nil|apply same_int_refl].
  - destruct it as [name|name t|name size]; cbn [omap list_omap sub_path].
    + split; [done|]. unfold sum_of in *. simpl. by rewrite Z.add_0_l.
    + destruct Hit as [l Hl]. split.
      * intros n [->|Hn]%elem_of_cons; [by eauto|by apply IH1].
      * unfold sum_of in *. cbn [foldr sub_total]. apply same_int_add; [|done].
        unfold returned_size. rewrite Hl. apply same_int_wrap_int.
    + split; [done|]. unfold sum_of in *. simpl. by rewrite Z.add_0_l.
Qed.

Lemma item_totals (items : list item) :
  sum_of (item_total tree_total) items = sum_of plain_size items + sum_of sub_total items.
Proof.
  unfold sum_of. induction items as [|[name|name t|name [size|]] items IH]; simpl; lia.
Qed.

(** ** The walk over a tree *)

Lemma walk_file (sys : system) (path : string) (fuel : nat) (sb : stat_buf) :
  lstat sys path = Some sb → st_is_reg sb = true →
  calculate_folder_size (S fuel) sys path = Returned (wrap_int (st_size sb), []).
Proof.
  intros Hsb Hreg. cbn [calculate_folder_size]. by rewrite Hsb, Hreg.
Qed.

(** Where the regular-file test does not return, the folder part runs with
    what [perror] printed so far. *)
Lemma walk_folder (sys : system) (path : string) (fuel : nat) :
  (∀ sb, lstat sys path = Some sb → st_is_reg sb = false) →
  ∃ log,
    calculate_folder_size (S fuel) sys path =
      match opendir sys path with
      | None => Returned (0, log ++ [Stderr "OPENDIR ERROR"])
      | Some entries =>
          match visit_all sys path entries
                  {| fs_size := 4096; fs_log := log; fs_tasks := [] |} with
          | Returned s =>
              match run_tasks (calculate_folder_size fuel sys)
                      (in_run_order (task_pick sys path) (fs_tasks s))
                      (fs_size s) (fs_log s) with
              | Returned (size, log') => Returned (wrap_int size, log')
              | Hazard h => Hazard h
              | NoFuel => NoFuel
              end
          | Hazard h => Hazard h
          | NoFuel => NoFuel
          end
      end.
Proof.
  intros Hreg. cbn [calculate_folder_size].
  destruct (lstat sys path) as [sb|].
  - rewrite (Hreg sb eq_refl). by exists [].
  - by exists [Stderr "LSTAT ERROR"].
Qed.

Lemma walk_tree (sys : system) :
  (∀ name, malloc_ok sys name = true) →
  (∀ name, strdup_ok sys name = true) →
  ∀ (depth : nat) (path : string) (t : tree) (fuel : nat),
    shows sys depth path t → tidy t = true → (depth < fuel)%nat →
    ∃ log, calculate_folder_size fuel sys path = Returned (wrap_int (tree_total t), log).
Proof.
  intros Hmalloc Hstrdup.
  assert (∀ depth path t fuel,
    (∀ depth' path' t', depth = S depth' → shows sys depth' path' t' → tidy t' = true →
       ∃ log, calculate_folder_size fuel sys path' = Returned (wrap_int (tree_total t'), log)) →
    shows sys depth path t → tidy t = true →
    ∃ log, calculate_folder_size (S fuel) sys path
             = Returned (wrap_int (tree_total t), log)) as Hstep.
  { intros depth path t fuel IH Hshows Htidy.
    destruct t as [size| |items]; destruct depth as [|depth]; simpl in Hshows; try done.
    - destruct Hshows as (sb & Hsb & Hreg & <-). exists []. by apply walk_file.
    - destruct Hshows as (sb & Hsb & Hreg & <-). exists []. by apply walk_file.
    - destruct Hshows as [Hreg Hopen].
      destruct (walk_folder sys path fuel Hreg) as [log Hwalk].
      rewrite Hopen in Hwalk. by eauto.
    - destruct Hshows as [Hreg Hopen].
      destruct (walk_folder sys path fuel Hreg) as [log Hwalk].
      rewrite Hopen in Hwalk. by eauto.
    - specialize (IH depth).
      destruct Hshows as (Hreg & entries & Hopen & Hentries).
      destruct (walk_folder sys path fuel Hreg) as [log Hwalk].
      rewrite Hopen in Hwalk. rewrite Hwalk. clear Hwalk.
      cbn [tidy] in Htidy.
      destruct (visit_all_tidy sys path _ tidy Hmalloc Hstrdup entries items Hentries
                  {| fs_size := 4096; fs_log := log; fs_tasks := [] |} false Htidy)
        as (s & -> & Hsize & Htasks); [done|].
      cbn [fs_size fs_tasks app] in Hsize, Htasks.
      rewrite Htasks, in_run_order_fmap.
      pose proof (subs_shown sys path _ tidy entries items Hentries false Htidy) as Hsubs.
      destruct (task_values (calculate_folder_size fuel sys) path items) as [Hret Hsum].
      { eapply Forall_impl; [exact Hsubs|].
        intros [name|name t|name size]; [done| |done].
        intros [Hshown Htidy']. by apply IH. }
      set (names := omap (sub_path path) items) in *.
      pose proof (in_run_order_Permutation (task_pick sys path) names) as Hperm.
      assert (∀ n, n ∈ in_run_order (task_pick sys path) names →
                ∃ r l, calculate_folder_size fuel sys n = Returned (r, l)) as Hret'.
      { intros n Hn. apply Hret. by rewrite <-Hperm. }
      destruct (run_tasks_returns (calculate_folder_size fuel sys)
                  (in_run_order (task_pick sys path) names) Hret' (fs_size s) (fs_log s))
        as (size' & log' & -> & Hsize').
      exists log'. f_equal. f_equal.
      rewrite (sum_of_Permutation _ _ _ Hperm) in Hsize'.
      cbn [tree_total]. rewrite item_totals.
      change (same_int size' (4096 + (sum_of plain_size items + sum_of sub_total items))).
      eapply same_int_trans; [exact Hsize'|].
      replace (4096 + (sum_of plain_size items + sum_of sub_total items))
        with (4096 + sum_of plain_size items + sum_of sub_total items) by lia.
      by apply same_int_add. }
  induction depth as [|depth IH]; intros path t fuel Hshows Htidy Hfuel;
    (destruct fuel as [|fuel]; [lia|]); apply (Hstep _ _ _ _) with (2 := Hshows); try done.
  intros depth' path' t' [= <-] Hshows' Htidy'. apply (IH path' t' fuel); [done|done|lia].
Qed.

(** ** What can go wrong in the loop *)

Lemma visit_all_app (sys : system) (path : string) (l1 l2 : list dirent) (s : folder_state) :
  visit_all sys path (l1 ++ l2) s =
    match visit_all sys path l1 s with
    | Returned s' => visit_all sys path l2 s'
    | Hazard h => Hazard h
    | NoFuel => NoFuel
    end.
Proof.
  revert s. induction l1 as [|e l1 IH]; intros s; [done|].
  cbn [app visit_all]. destruct (visit sys path e s); [apply IH|done|done].
Qed.

Lemma visit_no_fuel (sys : system) (path : string) (e : dirent) (s : folder_state) :
  visit sys path e s ≠ NoFuel.
Proof.
  unfold visit. repeat case_match; done.
Qed.

Lemma visit_cases (sys : system) (path : string) (e : dirent) (s : folder_state) :
  malloc_ok sys (entry_name path e) = true →
  visit sys path e s = Hazard DataRace ∨ ∃ s', visit sys path e s = Returned s'.
Proof.
  intros Hmalloc. unfold visit. rewrite Hmalloc. cbn [negb].
  repeat case_match; eauto.
Qed.

Lemma visit_all_cases (sys : system) (path : string) (l : list dirent) :
  (∀ name, malloc_ok sys name = true) →
  ∀ s, visit_all sys path l s = Hazard DataRace ∨ ∃ s', visit_all sys path l s = Returned s'.
Proof.
  intros Hmalloc. induction l as [|e l IH]; intros s; [by eauto|].
  cbn [visit_all].
  destruct (visit_cases sys path e s (Hmalloc _)) as [-> | [s' ->]]; [by left|apply IH].
Qed.

(** Once a task of the folder exists, one exists for the rest of the loop. *)
Lemma visit_pending (sys : system) (path : string) (e : dirent) (s s' : folder_state) :
  visit sys path e s = Returned s' → fs_tasks s ≠ [] → fs_tasks s' ≠ [].
Proof.
  unfold visit. intros Hvisit Htasks.
  repeat case_match; simplify_eq; cbn [fs_tasks]; try done; try congruence;
    by destruct (fs_tasks s).
Qed.

Lemma visit_all_race (sys : system) (path : string) (l : list dirent) (f : dirent)
    (sb : stat_buf) :
  (∀ name, malloc_ok sys name = true) →
  f ∈ l → d_is_dir f = false → lstat sys (entry_name path f) = Some sb →
  ∀ s, fs_tasks s ≠ [] → visit_all sys path l s = Hazard DataRace.
Proof.
  intros Hmalloc Hf Hdir Hsb. induction l as [|e l IH]; intros s Htasks.
  - by apply elem_of_nil in Hf.
  - cbn [visit_all]. apply elem_of_cons in Hf as [<- | Hf].
    + unfold visit. rewrite Hmalloc, Hdir, Hsb. cbn [negb].
      by destruct (fs_tasks s).
    + destruct (visit_cases sys path e s (Hmalloc _)) as [-> | [s' Hs']]; [done|].
      rewrite Hs'. apply IH; [done|]. by eapply visit_pending.
Qed.

Lemma visit_all_failed_malloc (sys : system) (path : string) (l : list dirent)
    (e : dirent) :
  e ∈ l → malloc_ok sys (entry_name path e) = false →
  ∀ s, ∃ h, visit_all sys path l s = Hazard h.
Proof.
  intros He Hmalloc. induction l as [|e' l IH]; intros s.
  - by apply elem_of_nil in He.
  - cbn [visit_all]. apply elem_of_cons in He as [<- | He].
    + unfold visit. rewrite Hmalloc. by eauto.
    + destruct (visit sys path e' s) as [s'|h|] eqn:Hvisit; [by apply IH|by eauto|].
      by apply visit_no_fuel in Hvisit.
Qed.

(** With memory for every name, every task has its name. *)
Lemma visit_all_names (sys : system) (path : string) (l : list dirent) :
  (∀ name, malloc_ok sys name = true) →
  (∀ name, strdup_ok sys name = true) →
  ∀ s, Forall is_Some (fs_tasks s) →
    visit_all sys path l s ≠ Hazard NullName
    ∧ ∀ s', visit_all sys path l s = Returned s' → Forall is_Some (fs_tasks s').
Proof.
  intros Hmalloc Hstrdup. induction l as [|e l IH]; intros s Hs.
  - split; [done|]. by intros s' [= <-].
  - cbn [visit_all]. destruct (visit sys path e s) as [s1|h|] eqn:Hvisit.
    + apply IH. revert Hvisit. unfold visit. rewrite Hmalloc, Hstrdup. cbn [negb].
      repeat case_match; intros [= <-]; cbn [fs_tasks]; try done.
      apply Forall_app. split; [done|]. by repeat constructor.
    + split; [|done]. intros [= ->]. revert Hvisit. unfold visit.
      rewrite Hmalloc. cbn [negb]. repeat case_match; done.
    + done.
Qed.

Lemma run_tasks_names (walk : string → result (Z * list event))
    (tasks : list (option string)) :
  (∀ name, walk name ≠ Hazard NullName) →
  Forall is_Some tasks →
  ∀ size log, run_tasks walk tasks size log ≠ Hazard NullName.
Proof.
  intros Hwalk. induction 1 as [|[name|] tasks Hname _ IH]; intros size log; [done| |].
  - cbn [run_tasks]. destruct (walk name) as [[r l]|h|] eqn:Hn; [apply IH| |done].
    intros [= ->]. by apply (Hwalk name).
  - by destruct Hname.
Qed.

(** X10: a folder tree in which no entry with a size is listed after a
    sub-folder is added up to its total: with memory for every name and
    enough fuel for its depth, [calculate_folder_size] returns the sum of the
    sizes of the entries that are not folders plus 4096 for every folder that
    can be opened, as an [int], in whatever order the tasks run. *)
Theorem calculate_folder_size_total (sys : system) (depth : nat) (path : string)
    (t : tree) (fuel : nat) :
  shows sys depth path t → tidy t = true →
  (∀ name, malloc_ok sys name = true) →
  (∀ name, strdup_ok sys name = true) →
  (depth < fuel)%nat →
  ∃ log, calculate_folder_size fuel sys path = Returned (wrap_int (tree_total t), log).
Proof.
  intros Hshows Htidy Hmalloc Hstrdup Hfuel. by eapply walk_tree.
Qed.

Lemma shows_small : shows sys_small 2 "/d" tree_small.
Proof.
  assert (shows sys_small 1 "/d/s" (Folder [Plain "b" (Some 2); Dots "."; Dots ".."]))
    as Hsub.
  { split; [by intros sb [= <-]|].
    eexists. split; [reflexivity|].
    repeat first [apply List.Forall2_nil | apply List.Forall2_cons]; simpl; by eauto. }
  split; [by intros sb [= <-]|].
  eexists. split; [reflexivity|].
  repeat first [apply List.Forall2_nil | apply List.Forall2_cons]; simpl; by eauto 6.
Defined.

Lemma calculate_folder_size_total_witness :
  ∃ log, calculate_folder_size 3 sys_small "/d"
           = Returned (wrap_int (tree_total tree_small), log).
Proof.
  apply (calculate_folder_size_total sys_small 2 "/d" tree_small 3);
    [exact shows_small|reflexivity|reflexivity|reflexivity|lia].
Defined.

(** X11: when [readdir] lists a sub-folder (not [.] or [..]) before an entry
    that is not a folder and that [lstat] finds, the parent adds to [size]
    with the plain [+=] of line 68 while a task that updates [size]
    atomically (line 58) exists: a data race. *)
Theorem calculate_folder_size_race (sys : system) (path : string) (fuel : nat)
    (before between after : list dirent) (d f : dirent) (sb : stat_buf) :
  (∀ name, malloc_ok sys name = true) →
  (∀ sb', lstat sys path = Some sb' → st_is_reg sb' = false) →
  opendir sys path = Some (before ++ d :: between ++ f :: after) →
  d_is_dir d = true → d_name d ≠ "." → d_name d ≠ ".." →
  d_is_dir f = false → lstat sys (entry_name path f) = Some sb →
  calculate_folder_size (S fuel) sys path = Hazard DataRace.
Proof.
  intros Hmalloc Hreg Hopen Hd Hne1 Hne2 Hf Hsb.
  destruct (walk_folder sys path fuel Hreg) as [log ->]. rewrite Hopen.
  rewrite visit_all_app.
  destruct (visit_all_cases sys path before Hmalloc
              {| fs_size := 4096; fs_log := log; fs_tasks := [] |}) as [-> | [s ->]]; [done|].
  cbn [visit_all]. unfold visit at 1. rewrite Hmalloc, Hd. cbn [negb].
  rewrite (proj2 (String.eqb_neq _ _) Hne1), (proj2 (String.eqb_neq _ _) Hne2).
  cbn [negb andb].
  rewrite (visit_all_race sys path (between ++ f :: after) f sb Hmalloc); [done| |done|done|].
  - apply elem_of_app. right. apply list_elem_of_here.
  - cbn [fs_tasks]. by destruct (fs_tasks s).
Qed.

Lemma calculate_folder_size_race_witness :
  calculate_folder_size 1 sys_untidy "/d" = Hazard DataRace.
Proof.
  apply (calculate_folder_size_race sys_untidy "/d" 0 [] [] []
           {| d_name := "s"; d_is_dir := true |} {| d_name := "a"; d_is_dir := false |}
           {| st_is_reg := true; st_size := 10 |});
    try done.
  by intros sb' [= <-].
Defined.

(** X12: with memory for every name ([malloc] and [strdup] never return
    NULL), no string function and no [lstat] is ever called with NULL,
    however deep the recursion goes. *)
Theorem calculate_folder_size_names (sys : system) (fuel : nat) (path : string) :
  (∀ name, malloc_ok sys name = true) →
  (∀ name, strdup_ok sys name = true) →
  calculate_folder_size fuel sys path ≠ Hazard NullName.
Proof.
  intros Hmalloc Hstrdup. revert path.
  induction fuel as [|fuel IH]; intros path; [done|].
  assert (∀ log,
    match opendir sys path with
    | None => Returned (0, log ++ [Stderr "OPENDIR ERROR"])
    | Some entries =>
        match visit_all sys path entries
                {| fs_size := 4096; fs_log := log; fs_tasks := [] |} with
        | Returned s =>
            match run_tasks (calculate_folder_size fuel sys)
                    (in_run_order (task_pick sys path) (fs_tasks s))
                    (fs_size s) (fs_log s) with
            | Returned (size, log') => Returned (wrap_int size, log')
            | Hazard h => Hazard h
            | NoFuel => NoFuel
            end
        | Hazard h => Hazard h
        | NoFuel => NoFuel
        end
    end ≠ Hazard NullName) as Hfolder.
  { intros log. destruct (opendir sys path) as [entries|]; [|done].
    destruct (visit_all_names sys path entries Hmalloc Hstrdup
                {| fs_size := 4096; fs_log := log; fs_tasks := [] |}) as [Hno Hnames];
      [constructor|].
    destruct (visit_all sys path entries _) as [s|h|]; [|congruence|done].
    pose proof (run_tasks_names (calculate_folder_size fuel sys)
                  (in_run_order (task_pick sys path) (fs_tasks s)) IH) as Hrun.
    specialize (Hrun ltac:(rewrite in_run_order_Permutation; by apply Hnames)
                  (fs_size s) (fs_log s)).
    destruct (run_tasks _ _ _ _) as [[size log']|h|]; [done|congruence|done]. }
  cbn [calculate_folder_size].
  destruct (lstat sys path) as [sb|]; [destruct (st_is_reg sb); [done|]|]; apply Hfolder.
Qed.

Lemma calculate_folder_size_names_witness :
  calculate_folder_size 3 sys_small "/d" ≠ Hazard NullName.
Proof.
  apply (calculate_folder_size_names sys_small 3 "/d"); reflexivity.
Defined.

(** X13: the result of [malloc] is not checked: when there is no memory for
    the name of one entry of the folder, the call does not return a size;
    [strcpy] writes through NULL (or the loop has run into the data race
    before). *)
Theorem calculate_folder_size_failed_malloc (sys : system) (path : string) (fuel : nat)
    (entries : list dirent) (e : dirent) :
  (∀ sb, lstat sys path = Some sb → st_is_reg sb = false) →
  opendir sys path = Some entries →
  e ∈ entries → malloc_ok sys (entry_name path e) = false →
  ∃ h, calculate_folder_size (S fuel) sys path = Hazard h.
Proof.
  intros Hreg Hopen He Hmalloc.
  destruct (walk_folder sys path fuel Hreg) as [log ->]. rewrite Hopen.
  destruct (visit_all_failed_malloc sys path entries e He Hmalloc
              {| fs_size := 4096; fs_log := log; fs_tasks := [] |}) as [h ->].
  by exists h.
Qed.

Lemma calculate_folder_size_failed_malloc_witness :
  ∃ h, calculate_folder_size 3 sys_full "/d" = Hazard h.
Proof.
  eapply (calculate_folder_size_failed_malloc sys_full "/d" 2 _
            {| d_name := "a"; d_is_dir := false |}).
  - by intros sb [= <-].
  - reflexivity.
  - do 2 apply list_elem_of_further. apply list_elem_of_here.
  - reflexivity.
Defined.

(** X14: for a path that does not exist ([stat] returns -1, [lstat] fails,
    [opendir] returns NULL) [main] prints "Path ok.", the two [perror]
    messages appear, the size printed is 0 and the exit status is 0: the
    [switch] compares the return value of [stat] with [errno] codes. *)
Theorem main_missing_path (sys : system) (fuel : nat) (prog str : string) :
  lstat sys str = None → opendir sys str = None →
  main (-1) (S fuel) sys [prog; str] =
    {| shown := [Stdout "Path ok."; Stderr "LSTAT ERROR"; Stderr "OPENDIR ERROR";
                 Stdout "Size: "; StdoutInt 0; StdoutTime];
       finished := Exited 0 |}.
Proof.
  intros Hlstat Hopen. unfold main.
  change (negb (length [prog; str] =? 2)%nat) with false.
  change (default "" ([prog; str] !! 1%nat)) with str.
  cbn [calculate_folder_size]. by rewrite Hlstat, Hopen.
Qed.

Lemma main_missing_path_witness :
  main (-1) 1 sys_small ["size"; "/nowhere"] =
    {| shown := [Stdout "Path ok."; Stderr "LSTAT ERROR"; Stderr "OPENDIR ERROR";
                 Stdout "Size: "; StdoutInt 0; StdoutTime];
       finished := Exited 0 |}.
Proof.
  apply (main_missing_path sys_small 0 "size" "/nowhere"); reflexivity.
Defined.

(** X15: whatever [stat] returned, 0 or -1, [main] prints "Path ok."; for a
    tree without a sized entry after a sub-folder, whose total fits an
    [int], it then prints that total and ends with status 0. *)
Theorem main_prints_total (stat_ret : Z) (sys : system) (depth : nat) (prog str : string)
    (t : tree) (fuel : nat) :
  stat_ret = 0 ∨ stat_ret = -1 →
  shows sys depth str t → tidy t = true →
  (∀ name, malloc_ok sys name = true) →
  (∀ name, strdup_ok sys name = true) →
  (depth < fuel)%nat →
  INT_MIN ≤ tree_total t ≤ INT_MAX →
  ∃ log, main stat_ret fuel sys [prog; str] =
    {| shown := Stdout "Path ok." :: log
                ++ [Stdout "Size: "; StdoutInt (tree_total t); StdoutTime];
       finished := Exited 0 |}.
Proof.
  intros Hret Hshows Htidy Hmalloc Hstrdup Hfuel Hfits.
  destruct (walk_tree sys Hmalloc Hstrdup depth str t fuel Hshows Htidy Hfuel)
    as [log Hwalk].
  exists log. unfold main.
  change (negb (length [prog; str] =? 2)%nat) with false.
  change (default "" ([prog; str] !! 1%nat)) with str.
  cbn iota zeta. rewrite Hwalk, (wrap_int_id _ Hfits).
  by destruct Hret as [-> | ->].
Qed.

Lemma main_prints_total_witness :
  ∃ log, main 0 3 sys_small ["size"; "/d"] =
    {| shown := Stdout "Path ok." :: log
                ++ [Stdout "Size: "; StdoutInt (tree_total tree_small); StdoutTime];
       finished := Exited 0 |}.
Proof.
  apply (main_prints_total 0 sys_small 2 "size" "/d" tree_small 3);
    [by left|exact shows_small|reflexivity|reflexivity|reflexivity|lia|].
  by vm_compute.
Defined.
